(** * UAE National Day Video API: job registry, pipeline runner and HTTP surface

    A shallow embedding of [api/main.py].  Python values are a small
    inductive type, dictionaries are [gmap string pyval], the body of every
    endpoint and of the background pipeline is a program in a free monad over
    the atomic actions the code performs on its shared resources (the job
    registry [JOBS], its lock [JOBS_LOCK], the disk, the clock), and the running
    server is a pool of such programs stepped one action at a time by a
    scheduler. *)

From Stdlib Require Import ZArith String Ascii List Bool Lia.
From stdpp Require Import base option list strings gmap pretty.

Set Warnings "-register-all".

Open Scope Z_scope.

(* ================================================================== *)
(** ** Python values *)

Abbreviation bytes := (list Byte.byte).

Inductive pyval :=
| PNone
| PBool (b : bool)
| PStr (s : string)
| PNum (n : Z)                       (* ints, and the readings of time.time() *)
| PList (l : list pyval)
| PDict (d : gmap string pyval).

Abbreviation pydict := (gmap string pyval).

(** Truth value of a Python object, as used by [if not x]. *)
Definition truthy (v : pyval) : bool :=
  match v with
  | PNone => false
  | PBool b => b
  | PStr s => negb (String.eqb s "")
  | PNum n => negb (Z.eqb n 0)
  | PList l => negb (Nat.eqb (List.length l) 0)
  | PDict d => negb (Nat.eqb (size d) 0)
  end.

(** Python [==] against a string literal. *)
Definition is_str (v : pyval) (lit : string) : bool :=
  match v with
  | PStr s => String.eqb s lit
  | _ => false
  end.

(** An [Optional[str]] argument as a Python value. *)
Definition of_optional (o : option string) : pyval :=
  match o with
  | Some s => PStr s
  | None => PNone
  end.

(** [s or d] on strings. *)
Definition str_or (s d : string) : string :=
  if String.eqb s "" then d else s.

(* ================================================================== *)
(** ** String and path helpers of the Python standard library *)

Module Py.

(** [sep.join(parts)] *)
Fixpoint join (sep : string) (parts : list string) : string :=
  match parts with
  | [] => ""
  | [p] => p
  | p :: rest => p +:+ sep +:+ join sep rest
  end.

Fixpoint lstrip_slash (s : string) : string :=
  match s with
  | String c r => if Ascii.eqb c "/" then lstrip_slash r else s
  | EmptyString => ""
  end.

Fixpoint rstrip_slash (s : string) : string :=
  match s with
  | String c r =>
      let r' := rstrip_slash r in
      if Ascii.eqb c "/" && String.eqb r' "" then "" else String c r'
  | EmptyString => ""
  end.

(** [s.strip("/")] *)
Definition strip_slash (s : string) : string := rstrip_slash (lstrip_slash s).

(** [s.replace("..", "")] *)
Fixpoint remove_dotdot (s : string) : string :=
  match s with
  | String c r =>
      match r with
      | String c' r' =>
          if Ascii.eqb c "." && Ascii.eqb c' "." then remove_dotdot r'
          else String c (remove_dotdot r)
      | EmptyString => s
      end
  | EmptyString => ""
  end.

Definition lower_ascii (c : ascii) : ascii :=
  let n := nat_of_ascii c in
  if (Nat.leb 65 n && Nat.leb n 90)%bool then ascii_of_nat (n + 32) else c.

(** [s.lower()] on ASCII text *)
Fixpoint lower (s : string) : string :=
  match s with
  | String c r => String (lower_ascii c) (lower r)
  | EmptyString => ""
  end.

(** The part of [s] after the last occurrence of [sep], if [sep] occurs. *)
Fixpoint after_last (sep : ascii) (s : string) : option string :=
  match s with
  | String c r =>
      match after_last sep r with
      | Some t => Some t
      | None => if Ascii.eqb c sep then Some r else None
      end
  | EmptyString => None
  end.

(** The part of [s] from its last ["."] on, if there is one. *)
Fixpoint from_last_dot (s : string) : option string :=
  match s with
  | String c r =>
      match from_last_dot r with
      | Some t => Some t
      | None => if Ascii.eqb c "." then Some s else None
      end
  | EmptyString => None
  end.

(** [os.path.basename(p)] *)
Definition basename (p : string) : string := default p (after_last "/" p).

(** [Path(p).suffix]: the extension of the final component, empty when the
    last dot is the first or the last character of the name. *)
Definition suffix (p : string) : string :=
  match basename p with
  | String _ rest =>
      match from_last_dot rest with
      | Some t => if Nat.eqb (String.length t) 1 then "" else t
      | None => ""
      end
  | EmptyString => ""
  end.

Fixpoint ends_with_slash (s : string) : bool :=
  match s with
  | String c EmptyString => Ascii.eqb c "/"
  | String _ r => ends_with_slash r
  | EmptyString => false
  end.

(** [os.path.join(a, b)] (POSIX) *)
Definition path_join (a b : string) : string :=
  if String.prefix "/" b then b
  else if String.eqb a "" || ends_with_slash a then a +:+ b
  else a +:+ "/" +:+ b.

End Py.

(* ================================================================== *)
(** ** Configuration (module-level constants read from the environment) *)

Record config := {
  USE_S3 : bool;
  AWS_REGION : string;
  S3_BUCKET : string;
  S3_PREFIX : string;               (* already stripped of "/" *)
  S3_PUBLIC_DOMAIN : string;        (* already stripped of trailing "/" *)
  PUBLIC_BASE_URL : string;         (* already stripped of trailing "/" *)
  MAX_UPLOAD_SIZE_MB : Z;
  ROOT_DIR : string;
}.

Definition MAX_UPLOAD_SIZE (cfg : config) : Z :=
  MAX_UPLOAD_SIZE_MB cfg * 1024 * 1024.

Definition UPLOAD_DIR (cfg : config) : string :=
  Py.path_join (ROOT_DIR cfg) "uploads".

(* ================================================================== *)
(** ** Exceptions and the outcome of a call that may raise

    [HTTPException] is the web framework's; only endpoint code raises it. *)

Inductive exn :=
| HTTPException (status_code : Z) (detail : string)
| PyError (type_name message : string).

(** [type(e).__name__] and [str(e)] *)
Definition exn_name (e : exn) : string :=
  match e with
  | HTTPException _ _ => "HTTPException"
  | PyError t _ => t
  end.

Definition exn_str (e : exn) : string :=
  match e with
  | HTTPException c d => pretty c +:+ ": " +:+ d
  | PyError _ m => m
  end.

(** What a program ends with. *)
Inductive result (A : Type) :=
| Done (a : A)
| Raised (e : exn).
Arguments Done {A} a.
Arguments Raised {A} e.

(** What a call into a library or an external service ends with: a value, or
    an error of the library's own, given by its class name and message. *)
Inductive outcome (A : Type) :=
| Returns (a : A)
| Fails (type_name message : string).
Arguments Returns {A} a.
Arguments Fails {A} type_name message.

(* ================================================================== *)
(** ** External collaborators

    The modules [wave] and [quiz], the HTTP client, the S3 client and the
    operating system are outside the repository's source.  Their behaviour is
    a parameter: every call either returns a value or raises. *)

Record http_response := {
  status_code_of : Z;
  content : bytes;
  header_content_type : option string;
}.

Record world := {
  nano_banana_edit : string -> string -> outcome (option string);
  wans2v : string -> string -> outcome (option string);
  generate_qr_code : string -> outcome bytes;   (* the QR image saved as PNG *)
  get_random_questions : Z -> option string -> outcome (list pydict);
  requests_get : string -> Z -> outcome http_response;
  s3_upload_file : string -> string -> string -> outcome unit;
  s3_put_object : bytes -> string -> string -> outcome unit;
  s3_generate_presigned_url : string -> Z -> outcome string;
  s3_head_bucket : string -> outcome unit;
  open_wb : string -> outcome unit;             (* open(path, "wb") + write *)
  os_remove : string -> outcome unit;
  uuid4 : nat -> string;                        (* the n-th identifier drawn *)
}.

(** [response.raise_for_status()] *)
Definition raise_for_status (r : http_response) : outcome unit :=
  if (400 <=? status_code_of r) && (status_code_of r <? 600)
  then Fails "HTTPError" (pretty (status_code_of r))
  else Returns tt.

(* ================================================================== *)
(** ** Atomic actions on the shared resources

    A job record is a mutable dictionary living in the heap; the registry
    [JOBS] maps a job id to a reference to it, so a handler that fetched a
    job under the lock still reads the live object afterwards. *)

Abbreviation ref := nat.

Record pipeline_args := {
  arg_job_id : string;
  arg_img_path : string;
  arg_age_group : string;
  arg_phone : option string;
}.

Inductive op :=
| Acquire                                        (* JOBS_LOCK.__enter__ *)
| Release                                        (* JOBS_LOCK.__exit__ *)
| JobsAssign (job_id : string) (d : pydict)      (* JOBS[job_id] = {...} *)
| JobsSetItem (job_id key : string) (v : pyval)  (* JOBS[job_id][key] = v *)
| JobsGet (job_id : string)                      (* JOBS.get(job_id) *)
| JobsValues                                     (* JOBS.values() *)
| DictGet (r : ref) (key : string)               (* job.get(key), job[key] *)
| DictBool (r : ref)                             (* truth value of a dict *)
| TimeTime                                       (* time.time() *)
| Uuid4                                          (* str(uuid.uuid4()) *)
| PathExists (path : string)                     (* os.path.exists(path) *)
| OsRemove (path : string) (verdict : outcome unit)   (* os.remove(path) *)
| OpenWb (path : string) (verdict : outcome unit)     (* open(path, "wb") *)
| FileWrite (path : string) (chunk : bytes)      (* f.write(chunk) *)
| UploadClose                                    (* await image.close() *)
| ThreadStart (args : pipeline_args).            (* Thread(target=_run_pipeline, ...).start() *)

(** What each action hands back to the program. *)
Definition ans (o : op) : Type :=
  match o with
  | Acquire | Release | JobsAssign _ _ | FileWrite _ _ | UploadClose
  | ThreadStart _ => unit
  | JobsSetItem _ _ _ | OsRemove _ _ | OpenWb _ _ => outcome unit
  | JobsGet _ => option ref
  | JobsValues => list ref
  | DictGet _ _ => option pyval
  | DictBool _ | PathExists _ => bool
  | TimeTime => Z
  | Uuid4 => string
  end.

(** Programs: return a value, raise, or perform one action and go on. *)
Inductive prog (A : Type) : Type :=
| Ret (a : A)
| Raise (e : exn)
| Do (o : op) (k : ans o -> prog A).
Arguments Ret {A} a.
Arguments Raise {A} e.
Arguments Do {A} o k.

Fixpoint bind {A B} (p : prog A) (f : A -> prog B) : prog B :=
  match p with
  | Ret a => f a
  | Raise e => Raise e
  | Do o k => Do o (fun x => bind (k x) f)
  end.

#[global] Instance prog_ret : MRet prog := @Ret.
#[global] Instance prog_bind : MBind prog := fun A B f p => bind p f.

Definition perform (o : op) : prog (ans o) := Do o Ret.

(** A call to an external collaborator: its outcome returns or raises. *)
Definition call {A} (r : outcome A) : prog A :=
  match r with
  | Returns a => Ret a
  | Fails t m => Raise (PyError t m)
  end.

(** [try: body except Exception as e: handler(e)] *)
Fixpoint try_except {A} (body : prog A) (handler : exn -> prog A) : prog A :=
  match body with
  | Ret a => Ret a
  | Raise e => handler e
  | Do o k => Do o (fun x => try_except (k x) handler)
  end.

(** [try: body finally: fin] *)
Fixpoint try_finally {A} (body : prog A) (fin : prog unit) : prog A :=
  match body with
  | Ret a => fin ;; Ret a
  | Raise e => fin ;; Raise e
  | Do o k => Do o (fun x => try_finally (k x) fin)
  end.

(** [with JOBS_LOCK: body] *)
Definition with_JOBS_LOCK {A} (body : prog A) : prog A :=
  perform Acquire ;; try_finally body (perform Release).

(** [JOBS[job_id][key] = v], a [KeyError] when the job is not registered. *)
Definition jobs_setitem (job_id key : string) (v : pyval) : prog unit :=
  r ← perform (JobsSetItem job_id key v); call r.

(** [d[key]] through a reference. *)
Definition dict_getitem (r : ref) (key : string) : prog pyval :=
  v ← perform (DictGet r key);
  match v with
  | Some x => Ret x
  | None => Raise (PyError "KeyError" ("'" +:+ key +:+ "'"))
  end.

(** [d.get(key)] through a reference. *)
Definition dict_get (r : ref) (key : string) : prog pyval :=
  v ← perform (DictGet r key); Ret (default PNone v).

(* ================================================================== *)
(** ** HTTP responses *)

Inductive response :=
| JSONResponse (status_code : Z) (body : pyval)
| PlainTextResponse (status_code : Z) (text : string)
| StreamingResponse (body : bytes) (media_type : string)
                    (headers : list (string * string)).

Definition status_of (r : response) : Z :=
  match r with
  | JSONResponse c _ => c
  | PlainTextResponse c _ => c
  | StreamingResponse _ _ _ => 200
  end.

(** What the web framework sends for an endpoint: the returned response, the
    status and detail of a raised [HTTPException], a 500 for anything else. *)
Definition serve (endpoint : prog response) : prog response :=
  try_except endpoint (fun e =>
    match e with
    | HTTPException c d => Ret (JSONResponse c (PDict {[ "detail" := PStr d ]}))
    | PyError _ _ => Ret (PlainTextResponse 500 "Internal Server Error")
    end).

Record UploadFile := {
  filename : string;
  content_type : option string;
  stream : list bytes;     (* what successive [read(chunk_size)] calls return *)
}.

(* ================================================================== *)
(** ** The application: [api/main.py] *)

Section App.

Context (cfg : config) (w : world).

(** *** S3 helpers *)

Definition _s3_key (parts : list string) : string :=
  let safe :=
    (fun p => Py.remove_dotdot (Py.strip_slash p))
      <$> filter (fun p => p ≠ "") parts in
  if String.eqb (S3_PREFIX cfg) "" then Py.join "/" safe
  else Py.join "/" (S3_PREFIX cfg :: safe).

Definition _s3_put_file (local_path key ctype : string) : prog unit :=
  call (s3_upload_file w local_path key ctype).

Definition _s3_put_bytes (data : bytes) (key ctype : string) : prog unit :=
  call (s3_put_object w data key ctype).

Definition _s3_url_for_key (key : string) : prog string :=
  if String.eqb (S3_PUBLIC_DOMAIN cfg) ""
  then call (s3_generate_presigned_url w key 86400)
  else Ret (S3_PUBLIC_DOMAIN cfg +:+ "/" +:+ key).

(** *** Local storage helpers *)

Definition result_path (kind name : string) : string :=
  Py.path_join (Py.path_join (Py.path_join (ROOT_DIR cfg) "result") kind) name.

(** [with open(path, "wb") as f: f.write(data)] *)
Definition write_file (path : string) (data : bytes) : prog unit :=
  r ← perform (OpenWb path (open_wb w path)); call r;;
  perform (FileWrite path data).

Definition _save_local_video (url job_id : string) : prog string :=
  resp ← call (requests_get w url 300);
  call (raise_for_status resp);;
  let file_path := result_path "videos" (job_id +:+ ".mp4") in
  write_file file_path (content resp);;
  Ret file_path.

Definition _save_local_image (url job_id : string) : prog string :=
  resp ← call (requests_get w url 60);
  call (raise_for_status resp);;
  let file_path := result_path "images" (job_id +:+ ".jpeg") in
  write_file file_path (content resp);;
  Ret file_path.

(** *** Job records *)

Definition image_record (phone : option string) (now : Z) : pydict :=
  {[ "status" := PStr "image";
     "video_url" := PNone;
     "image_url" := PNone;
     "video_path" := PNone;
     "error" := PNone;
     "phone" := of_optional phone;
     "started_at" := PNum now ]}.

Definition failed_record (e : exn) (phone : option string) (now : Z) : pydict :=
  {[ "status" := PStr "failed";
     "video_url" := PNone;
     "image_url" := PNone;
     "video_path" := PNone;
     "error" := PStr (exn_name e +:+ ": " +:+ exn_str e);
     "phone" := of_optional phone;
     "failed_at" := PNum now ]}.

(** *** Pipeline *)

(** Step 3 of the pipeline: store the media and build the final URLs.
    Returns [(final_video_url, final_image_url, local_video_path)]. *)
Definition store_media (job_id img_path edited_img_url video_url_remote : string)
  : prog (string * string * option string) :=
  if USE_S3 cfg then
    let ext := str_or (Py.lower (Py.suffix img_path)) ".jpg" in
    let upload_key := _s3_key ["uploads"; job_id +:+ ext] in
    _s3_put_file img_path upload_key
      (if bool_decide (ext ∈ [".jpg"; ".jpeg"]) then "image/jpeg" else "image/png");;
    img_resp ← call (requests_get w edited_img_url 60);
    call (raise_for_status img_resp);;
    let image_key := _s3_key ["images"; job_id +:+ ".jpeg"] in
    _s3_put_bytes (content img_resp) image_key
      (default "image/jpeg" (header_content_type img_resp));;
    vid_resp ← call (requests_get w video_url_remote 300);
    call (raise_for_status vid_resp);;
    let video_key := _s3_key ["videos"; job_id +:+ ".mp4"] in
    _s3_put_bytes (content vid_resp) video_key "video/mp4";;
    final_video_url ← _s3_url_for_key video_key;
    final_image_url ← _s3_url_for_key image_key;
    Ret (final_video_url, final_image_url, None)
  else
    _save_local_image edited_img_url job_id;;
    local_video_path ← _save_local_video video_url_remote job_id;
    let filename := Py.basename local_video_path in
    let rel_url := "/media/videos/" +:+ filename in
    let final_video_url :=
      if String.eqb (PUBLIC_BASE_URL cfg) "" then rel_url
      else PUBLIC_BASE_URL cfg +:+ rel_url in
    let rel_img_url := "/media/images/" +:+ job_id +:+ ".jpeg" in
    let final_image_url :=
      if String.eqb (PUBLIC_BASE_URL cfg) "" then rel_img_url
      else PUBLIC_BASE_URL cfg +:+ rel_img_url in
    Ret (final_video_url, final_image_url, Some local_video_path).

(** The body of the [try] block. *)
Definition pipeline_body (job_id img_path age_group : string)
    (phone : option string) : prog unit :=
  with_JOBS_LOCK (
    now ← perform TimeTime;
    perform (JobsAssign job_id (image_record phone now)));;
  (* Step 1: image generation *)
  edited_img_url ← call (nano_banana_edit w img_path age_group);
  match edited_img_url with
  | None | Some "" => Raise (PyError "RuntimeError" "Image generation failed")
  | Some edited_img_url =>
    with_JOBS_LOCK (jobs_setitem job_id "status" (PStr "video"));;
    (* Step 2: video generation *)
    video_url_remote ← call (wans2v w edited_img_url age_group);
    match video_url_remote with
    | None | Some "" => Raise (PyError "RuntimeError" "Video generation failed")
    | Some video_url_remote =>
      (* Step 3: store media (S3 or local) *)
      '(final_video_url, final_image_url, local_video_path) ←
        store_media job_id img_path edited_img_url video_url_remote;
      (* Update job status *)
      with_JOBS_LOCK (
        jobs_setitem job_id "status" (PStr "completed");;
        jobs_setitem job_id "video_url" (PStr final_video_url);;
        jobs_setitem job_id "image_url" (PStr final_image_url);;
        jobs_setitem job_id "video_path" (of_optional local_video_path);;
        now ← perform TimeTime;
        jobs_setitem job_id "completed_at" (PNum now))
    end
  end.

(** The [except Exception as e] block. *)
Definition pipeline_except (job_id : string) (phone : option string)
    (e : exn) : prog unit :=
  with_JOBS_LOCK (
    now ← perform TimeTime;
    perform (JobsAssign job_id (failed_record e phone now))).

(** The [finally] block: clean up the temporary upload. *)
Definition pipeline_finally (img_path : string) : prog unit :=
  try_except
    (present ← perform (PathExists img_path);
     if (present : bool) then
       r ← perform (OsRemove img_path (os_remove w img_path)); call r
     else Ret tt)
    (fun _ => Ret tt).

Definition _run_pipeline (job_id img_path age_group : string)
    (phone : option string) : prog unit :=
  try_finally
    (try_except (pipeline_body job_id img_path age_group phone)
                (pipeline_except job_id phone))
    (pipeline_finally img_path).

(** *** API endpoints *)

(** [{"Male", "Female", "Boy", "Girl"}] and [{"image/jpeg", "image/png"}] *)
Definition age_groups : list string := ["Male"; "Female"; "Boy"; "Girl"].
Definition image_types : list (option string) :=
  [Some "image/jpeg"; Some "image/png"].

Definition too_large : exn :=
  HTTPException 413 ("File too large (max " +:+ pretty (MAX_UPLOAD_SIZE_MB cfg)
                       +:+ "MB)").

(** The streaming loop of [create_job]: [read] is the number of bytes
    received so far; the stream ends at the first empty chunk. *)
Fixpoint save_stream (upload_path : string) (chunks : list bytes) (read : Z)
  : prog unit :=
  match chunks with
  | [] => Ret tt
  | chunk :: rest =>
      if Nat.eqb (length chunk) 0 then Ret tt
      else
        let read := read + Z.of_nat (length chunk) in
        if MAX_UPLOAD_SIZE cfg <? read then Raise too_large
        else
          perform (FileWrite upload_path chunk);;
          save_stream upload_path rest read
  end.

(** [ext = Path(image.filename).suffix or ".jpg"] and
    [upload_path = os.path.join(UPLOAD_DIR, f"{job_id}{ext}")] *)
Definition upload_path_for (image : UploadFile) (job_id : string) : string :=
  let ext := str_or (Py.suffix (filename image)) ".jpg" in
  Py.path_join (UPLOAD_DIR cfg) (job_id +:+ ext).

Definition create_job (image : UploadFile) (age_group : string)
    (phone : option string) : prog response :=
  if negb (bool_decide (age_group ∈ age_groups)) then
    Raise (HTTPException 400 "Invalid age_group")
  else if negb (bool_decide (content_type image ∈ image_types)) then
    Raise (HTTPException 400 "Only JPEG/PNG images are accepted")
  else
    job_id ← perform Uuid4;
    let upload_path := upload_path_for image job_id in
    (* Stream to disk with size limit *)
    try_finally
      (r ← perform (OpenWb upload_path (open_wb w upload_path)); call r;;
       save_stream upload_path (stream image) 0)
      (perform UploadClose);;
    (* Start background processing *)
    perform (ThreadStart {| arg_job_id := job_id;
                            arg_img_path := upload_path;
                            arg_age_group := age_group;
                            arg_phone := phone |});;
    Ret (JSONResponse 200 (PDict {[ "job_id" := PStr job_id ]})).

Definition job_status (job_id : string) : prog response :=
  job ← with_JOBS_LOCK (perform (JobsGet job_id));
  match job with
  | None => Ret (JSONResponse 200 (PDict {[ "status" := PStr "queued" ]}))
  | Some job =>
      nonempty ← perform (DictBool job);
      if negb nonempty then
        Ret (JSONResponse 200 (PDict {[ "status" := PStr "queued" ]}))
      else
        status ← dict_getitem job "status";
        error ← dict_get job "error";
        let resp : pydict := {[ "status" := status; "error" := error ]} in
        status' ← dict_getitem job "status";
        if is_str status' "completed" then
          video_url ← dict_get job "video_url";
          image_url ← dict_get job "image_url";
          Ret (JSONResponse 200 (PDict (
            <[ "qr_url" := PStr ("/api/jobs/" +:+ job_id +:+ "/qr") ]>
              (<[ "image_url" := image_url ]>
                 (<[ "video_url" := video_url ]> resp)))))
        else Ret (JSONResponse 200 (PDict resp))
  end.

Definition qr_not_available : exn := HTTPException 404 "QR not available".

Definition job_qr (job_id : string) : prog response :=
  job ← with_JOBS_LOCK (perform (JobsGet job_id));
  match job with
  | None => Raise qr_not_available
  | Some job =>
      nonempty ← perform (DictBool job);
      if negb nonempty then Raise qr_not_available
      else
        status ← dict_get job "status";
        if negb (is_str status "completed") then Raise qr_not_available
        else
          video_url ← dict_get job "video_url";
          if negb (truthy video_url) then Raise qr_not_available
          else
            (* Generate QR code with video URL *)
            video_url ← dict_getitem job "video_url";
            match video_url with
            | PStr url =>
                png ← call (generate_qr_code w url);
                Ret (StreamingResponse png "image/png"
                       [("Cache-Control", "public, max-age=3600")])
            | _ => Raise (PyError "TypeError" "video_url is not a string")
            end
  end.

(** [{"id": q["id"], "question": q["question"], "options": q["options"]}] *)
Definition sanitize (q : pydict) : prog pydict :=
  match q !! "id", q !! "question", q !! "options" with
  | Some i, Some t, Some o =>
      Ret ({[ "id" := i; "question" := t; "options" := o ]} : pydict)
  | None, _, _ => Raise (PyError "KeyError" "'id'")
  | _, None, _ => Raise (PyError "KeyError" "'question'")
  | _, _, None => Raise (PyError "KeyError" "'options'")
  end.

Fixpoint sanitize_all (qs : list pydict) : prog (list pydict) :=
  match qs with
  | [] => Ret []
  | q :: rest =>
      q' ← sanitize q; rest' ← sanitize_all rest; Ret (q' :: rest')
  end.

Definition get_questions (count : Z) (seed : option string) : prog response :=
  try_except
    (qs ← call (get_random_questions w count seed);
     sanitized ← sanitize_all qs;
     Ret (JSONResponse 200 (PDict
            {[ "questions" := PList (PDict <$> sanitized);
               "key" := PList (PDict <$> qs) ]})))
    (fun e => Raise (HTTPException 500 (exn_str e))).

(** [len([j for j in jobs if j["status"] in {"image", "video"}])] *)
Fixpoint count_active (jobs : list ref) : prog Z :=
  match jobs with
  | [] => Ret 0
  | j :: rest =>
      status ← dict_getitem j "status";
      n ← count_active rest;
      Ret (if is_str status "image" || is_str status "video" then 1 + n else n)
  end.

Definition healthz : prog response :=
  now ← perform TimeTime;
  jobs ← perform JobsValues;
  jobs_active ← count_active jobs;
  let health : pydict :=
    {[ "ok" := PBool true;
       "time" := PNum now;
       "storage" := PStr (if USE_S3 cfg then "s3" else "local");
       "jobs_active" := PNum jobs_active ]} in
  if USE_S3 cfg then
    match s3_head_bucket w (S3_BUCKET cfg) with
    | Returns _ =>
        Ret (JSONResponse 200 (PDict (
          <[ "cdn" := PStr (str_or (S3_PUBLIC_DOMAIN cfg) "presigned") ]>
            (<[ "s3_region" := PStr (AWS_REGION cfg) ]>
               (<[ "s3_bucket" := PStr (S3_BUCKET cfg) ]>
                  (<[ "s3_status" := PStr "connected" ]> health))))))
    | Fails _ m =>
        Ret (JSONResponse 200 (PDict (
          <[ "s3_status" := PStr ("error: " +:+ m) ]> health)))
    end
  else Ret (JSONResponse 200 (PDict health)).

End App.

(* ================================================================== *)
(** ** Quiz answers: [POST /api/jobs/{job_id}/answers]

    [grade_answers] (module [quiz]) is outside the repository's source, and
    so are [os.makedirs] and the text Python's [str] gives for a value: the
    three are parameters of the endpoint.  The record is written as UTF-8, a
    string being the sequence of its bytes. *)

Definition quote : string := String "034" "".
Definition newline : string := String "010" "".

Section Answers.

Context (cfg : config) (w : world).

Variable grade_answers : list pyval -> list pyval -> outcome pydict.
Variable os_makedirs : string -> outcome unit.
Variable format_value : pyval -> string.

(** [result[key]] on a dictionary at hand. *)
Definition getitem (d : pydict) (key : string) : prog pyval :=
  match d !! key with
  | Some x => Ret x
  | None => Raise (PyError "KeyError" ("'" +:+ key +:+ "'"))
  end.

(** One line of the quiz record: two spaces, the quoted name, a colon, the
    value as an f-string formats it. *)
Definition quiz_line (name : string) (v : pyval) : string :=
  "  " +:+ quote +:+ name +:+ quote +:+ ": " +:+ format_value v.

(** The text written to the quiz record; the three fields of the result are
    read in this order. *)
Definition quiz_text (result : pydict) : prog string :=
  score ← getitem result "score";
  correct ← getitem result "correct";
  total ← getitem result "total";
  Ret ("{" +:+ newline
       +:+ quiz_line "score" score +:+ "," +:+ newline
       +:+ quiz_line "correct" correct +:+ "," +:+ newline
       +:+ quiz_line "total" total +:+ newline
       +:+ "}" +:+ newline).

(** [os.path.join(ROOT_DIR, "result", "quiz", f"{job_id}.json")] *)
Definition quiz_path (job_id : string) : string :=
  result_path cfg "quiz" (job_id +:+ ".json").

Definition submit_answers (job_id : string) (payload : pydict)
  : prog response :=
  let key := default PNone (payload !! "key") in
  let answers := default PNone (payload !! "answers") in
  match key, answers with
  | PList key, PList answers =>
      result ← call (grade_answers key answers);
      (* Save quiz result (local only, not in S3) *)
      call (os_makedirs
              (Py.path_join (Py.path_join (ROOT_DIR cfg) "result") "quiz"));;
      let record_path := quiz_path job_id in
      (* the file is opened before the text is built *)
      r ← perform (OpenWb record_path (open_wb w record_path)); call r;;
      text ← quiz_text result;
      perform (FileWrite record_path (list_byte_of_string text));;
      Ret (JSONResponse 200 (PDict result))
  | _, _ => Raise (HTTPException 400 "Invalid payload")
  end.

End Answers.

(* ================================================================== *)
(** ** The running server

    The server is a pool of threads (one per request being handled, one per
    pipeline started) over one shared state.  A scheduler picks the thread
    that performs its next action; requests arrive at any time. *)

Inductive request :=
| CreateJob (image : UploadFile) (age_group : string) (phone : option string)
| JobStatus (job_id : string)
| JobQr (job_id : string)
| GetQuestions (count : Z) (seed : option string)
| Healthz.

Inductive thread :=
| Worker (args : pipeline_args) (code : prog unit)
| Handler (req : request) (code : prog response).

(** One line of the execution log: who performed which action, and who held
    [JOBS_LOCK] when it was performed. *)
Record entry := {
  actor : nat;
  holder : option nat;
  action : op;
}.

Record system := {
  JOBS : gmap string ref;        (* the registry: job id -> job record *)
  heap : list pydict;            (* the job records, by reference *)
  JOBS_LOCK : option nat;        (* the thread holding the lock, if any *)
  disk : gmap string bytes;      (* files by path *)
  clock : Z;
  issued : nat;                  (* identifiers drawn from uuid4 so far *)
  pool : list thread;
  log : list entry;              (* oldest first *)
}.

Definition boot : system :=
  {| JOBS := ∅; heap := []; JOBS_LOCK := None; disk := ∅; clock := 0;
     issued := 0; pool := []; log := [] |}.

Definition set_JOBS (x : gmap string ref) (s : system) : system :=
  {| JOBS := x; heap := heap s; JOBS_LOCK := JOBS_LOCK s; disk := disk s;
     clock := clock s; issued := issued s; pool := pool s; log := log s |}.
Definition set_heap (x : list pydict) (s : system) : system :=
  {| JOBS := JOBS s; heap := x; JOBS_LOCK := JOBS_LOCK s; disk := disk s;
     clock := clock s; issued := issued s; pool := pool s; log := log s |}.
Definition set_JOBS_LOCK (x : option nat) (s : system) : system :=
  {| JOBS := JOBS s; heap := heap s; JOBS_LOCK := x; disk := disk s;
     clock := clock s; issued := issued s; pool := pool s; log := log s |}.
Definition set_disk (x : gmap string bytes) (s : system) : system :=
  {| JOBS := JOBS s; heap := heap s; JOBS_LOCK := JOBS_LOCK s; disk := x;
     clock := clock s; issued := issued s; pool := pool s; log := log s |}.
Definition set_clock (x : Z) (s : system) : system :=
  {| JOBS := JOBS s; heap := heap s; JOBS_LOCK := JOBS_LOCK s; disk := disk s;
     clock := x; issued := issued s; pool := pool s; log := log s |}.
Definition set_issued (x : nat) (s : system) : system :=
  {| JOBS := JOBS s; heap := heap s; JOBS_LOCK := JOBS_LOCK s; disk := disk s;
     clock := clock s; issued := x; pool := pool s; log := log s |}.
Definition set_pool (x : list thread) (s : system) : system :=
  {| JOBS := JOBS s; heap := heap s; JOBS_LOCK := JOBS_LOCK s; disk := disk s;
     clock := clock s; issued := issued s; pool := x; log := log s |}.
Definition set_log (x : list entry) (s : system) : system :=
  {| JOBS := JOBS s; heap := heap s; JOBS_LOCK := JOBS_LOCK s; disk := disk s;
     clock := clock s; issued := issued s; pool := pool s; log := x |}.

Section Server.

Context (cfg : config) (w : world).

Definition endpoint (r : request) : prog response :=
  match r with
  | CreateJob image age_group phone => create_job cfg w image age_group phone
  | JobStatus job_id => job_status job_id
  | JobQr job_id => job_qr w job_id
  | GetQuestions count seed => get_questions w count seed
  | Healthz => healthz cfg w
  end.

Definition worker (a : pipeline_args) : thread :=
  Worker a (_run_pipeline cfg w (arg_job_id a) (arg_img_path a)
                          (arg_age_group a) (arg_phone a)).

(** The effect of one action performed by thread [t]; [None] when the
    action cannot proceed (the lock is taken). *)
Definition sem (t : nat) (o : op) (s : system) : option (ans o * system) :=
  match o return option (ans o * system) with
  | Acquire =>
      match JOBS_LOCK s with
      | None => Some (tt, set_JOBS_LOCK (Some t) s)
      | Some _ => None
      end
  | Release => Some (tt, set_JOBS_LOCK None s)
  | JobsAssign job_id d =>
      Some (tt, set_JOBS (<[job_id := length (heap s)]> (JOBS s))
                  (set_heap (heap s ++ [d]) s))
  | JobsSetItem job_id key v =>
      match JOBS s !! job_id with
      | Some r => Some (Returns tt, set_heap (alter (insert key v) r (heap s)) s)
      | None => Some (Fails "KeyError" ("'" +:+ job_id +:+ "'"), s)
      end
  | JobsGet job_id => Some (JOBS s !! job_id, s)
  | JobsValues => Some ((map_to_list (JOBS s)).*2, s)
  | DictGet r key => Some (heap s !! r ≫= (.!! key), s)
  | DictBool r =>
      Some (match heap s !! r with
            | Some d => negb (Nat.eqb (size d) 0)
            | None => false
            end, s)
  | TimeTime => Some (clock s, s)
  | Uuid4 => Some (uuid4 w (issued s), set_issued (S (issued s)) s)
  | PathExists path => Some (bool_decide (is_Some (disk s !! path)), s)
  | OsRemove path verdict =>
      match disk s !! path, verdict with
      | None, _ => Some (Fails "FileNotFoundError" path, s)
      | Some _, Returns _ => Some (Returns tt, set_disk (delete path (disk s)) s)
      | Some _, Fails c m => Some (Fails c m, s)
      end
  | OpenWb path verdict =>
      match verdict with
      | Returns _ => Some (Returns tt, set_disk (<[path := []]> (disk s)) s)
      | Fails c m => Some (Fails c m, s)
      end
  | FileWrite path chunk =>
      Some (tt, set_disk (alter (fun old => old ++ chunk) path (disk s)) s)
  | UploadClose => Some (tt, s)
  | ThreadStart a => Some (tt, set_pool (pool s ++ [worker a]) s)
  end.

(** Book-keeping common to every action: the log and the passing of time. *)
Definition account (t : nat) (o : op) (held_by : option nat) (after : system)
  : system :=
  set_clock (clock after + 1)
    (set_log (log after ++ [{| actor := t; holder := held_by; action := o |}])
       after).

(** One action of a program run as thread [t]. *)
Definition advance {A} (t : nat) (p : prog A) (s : system)
  : option (prog A * system) :=
  match p with
  | Do o k =>
      match sem t o s with
      | Some (a, s') => Some (k a, account t o (JOBS_LOCK s) s')
      | None => None
      end
  | _ => None
  end.

Definition set_thread (t : nat) (th : thread) (s : system) : system :=
  set_pool (<[t := th]> (pool s)) s.

(** Thread [t] performs its next action, if it has one and is not blocked. *)
Definition step (t : nat) (s : system) : option system :=
  match pool s !! t with
  | Some (Worker a p) =>
      match advance t p s with
      | Some (p', s') => Some (set_thread t (Worker a p') s')
      | None => None
      end
  | Some (Handler r p) =>
      match advance t p s with
      | Some (p', s') => Some (set_thread t (Handler r p') s')
      | None => None
      end
  | None => None
  end.

Inductive event :=
| Arrive (r : request)       (* a request comes in: its handler is started *)
| Run (t : nat).             (* thread [t] is scheduled for one action *)

Definition fire (e : event) (s : system) : system :=
  match e with
  | Arrive r => set_pool (pool s ++ [Handler r (serve (endpoint r))]) s
  | Run t => default s (step t s)
  end.

(** The state after a schedule, from state [s]. *)
Definition run (sched : list event) (s : system) : system :=
  foldl (fun s e => fire e s) s sched.

(** A program run to its end as thread [t] without interruption. *)
Fixpoint exec {A} (t : nat) (p : prog A) (s : system)
  : option (result A * system) :=
  match p with
  | Ret a => Some (Done a, s)
  | Raise e => Some (Raised e, s)
  | Do o k =>
      match sem t o s with
      | Some (a, s') => exec t (k a) (account t o (JOBS_LOCK s) s')
      | None => None
      end
  end.

End Server.

(* ================================================================== *)
(** ** Notions used to state the properties *)

(** The number of bytes the client sends: the chunks up to the first empty
    read. *)
Fixpoint upload_size (chunks : list bytes) : Z :=
  match chunks with
  | [] => 0
  | chunk :: rest =>
      if Nat.eqb (length chunk) 0 then 0
      else Z.of_nat (length chunk) + upload_size rest
  end.

(** The chunks that reach the disk when [read] bytes were received before:
    those before the end of the stream or the chunk that breaks the limit. *)
Fixpoint accepted_chunks (cfg : config) (chunks : list bytes) (read : Z)
  : list bytes :=
  match chunks with
  | [] => []
  | chunk :: rest =>
      if Nat.eqb (length chunk) 0 then []
      else if MAX_UPLOAD_SIZE cfg <? read + Z.of_nat (length chunk) then []
      else chunk :: accepted_chunks cfg rest (read + Z.of_nat (length chunk))
  end.

(** Whether the streaming loop breaks off with [read] bytes received before. *)
Fixpoint exceeds (cfg : config) (chunks : list bytes) (read : Z) : bool :=
  match chunks with
  | [] => false
  | chunk :: rest =>
      if Nat.eqb (length chunk) 0 then false
      else if MAX_UPLOAD_SIZE cfg <? read + Z.of_nat (length chunk) then true
      else exceeds cfg rest (read + Z.of_nat (length chunk))
  end.

(** The parts of the state an action on files leaves alone. *)
Definition same_registry (s s' : system) : Prop :=
  JOBS s' = JOBS s ∧ heap s' = heap s ∧ JOBS_LOCK s' = JOBS_LOCK s ∧
  pool s' = pool s ∧ issued s' = issued s.

(** The record the registry holds for a job id, if any. *)
Definition job_record (s : system) (job_id : string) : option pydict :=
  JOBS s !! job_id ≫= (heap s !!.).

(** [job.get(key)] on the record registered under [job_id]; [None] when there
    is no such record. *)
Definition job_field (s : system) (job_id key : string) : pyval :=
  default PNone (job_record s job_id ≫= (.!! key)).

(** When no QR code can be served: the job is absent from the registry, or
    its status is not [completed], or its video URL is unset or empty. *)
Definition qr_unavailable (s : system) (job_id : string) : Prop :=
  JOBS s !! job_id = None ∨
  is_str (job_field s job_id "status") "completed" = false ∨
  truthy (job_field s job_id "video_url") = false.

(** The fields of a question a client may see. *)
Definition client_fields : list string := ["id"; "question"; "options"].

(** A value that, if it is a list of records, holds client-visible fields
    only. *)
Definition only_client_fields (v : pyval) : Prop :=
  match v with
  | PList items =>
      Forall (fun item =>
                match item with
                | PDict q => dom q ⊆ list_to_set client_fields
                | _ => True
                end) items
  | _ => True
  end.

(** No part of a JSON response carries more than the client-visible fields
    of a question. *)
Definition answers_withheld (resp : response) : Prop :=
  match resp with
  | JSONResponse _ (PDict body) =>
      ∀ k v, body !! k = Some v → only_client_fields v
  | _ => True
  end.







(* ------------------------------------------------------------------ *)
(** *** The state machine of a job *)

(** The status written in a record. *)
Definition status_in (d : pydict) : option string :=
  match d !! "status" with
  | Some (PStr x) => Some x
  | _ => None
  end.

(** The status the registry shows for a job; [None] when the job is not
    registered. *)
Definition job_status_in (s : system) (job_id : string) : option string :=
  job_record s job_id ≫= status_in.

(** The transitions of section 4.3: registration as [image], then
    [image -> video -> completed] or [image|video -> failed]. *)
Definition transition (st : option string) (x : string) : bool :=
  match st with
  | None => String.eqb x "image"
  | Some cur =>
      (String.eqb cur "image" && (String.eqb x "video" || String.eqb x "failed"))
      || (String.eqb cur "video"
          && (String.eqb x "completed" || String.eqb x "failed"))
  end.

(** One step of a job's status: it stays, or it takes a transition. *)
Definition moved (st st' : option string) : Prop :=
  st' = st ∨ ∃ x, st' = Some x ∧ transition st x = true.

(* ------------------------------------------------------------------ *)
(** *** What clients see *)

(** The response a handler has come to, once it is done. *)
Definition answer_of (th : thread) : option response :=
  match th with
  | Handler _ (Ret resp) => Some resp
  | _ => None
  end.

(** The status a poll has been answered with. *)
Definition polled_status (resp : response) : option string :=
  match resp with
  | JSONResponse _ (PDict body) => status_in body
  | _ => None
  end.

(** What a poll answers for a job it does not find. *)
Definition queued_answer : response :=
  JSONResponse 200 (PDict {[ "status" := PStr "queued" ]}).


(** Whether a field of a JSON payload is a list. *)
Definition is_list (v : option pyval) : bool :=
  match v with
  | Some (PList _) => true
  | _ => false
  end.

(* ------------------------------------------------------------------ *)
(** *** Reads, and where they stand with respect to the lock *)

(** Actions that only read: the lock, the registry, the records, the clock,
    the presence of a file. *)
Definition read_only (o : op) : Prop :=
  match o with
  | Acquire | Release | JobsGet _ | JobsValues | DictGet _ _ | DictBool _
  | TimeTime | PathExists _ => True
  | _ => False
  end.


(** A log entry of a poll by thread [t]: the registry lookup and the release
    are performed by the holder of the lock, everything else (taking the
    lock, reading the job record) with the lock free. *)
Definition poll_locking (t : nat) (e : entry) : Prop :=
  actor e = t ∧
  holder e = match action e with
             | JobsGet _ | Release => Some t
             | _ => None
             end.




(* ------------------------------------------------------------------ *)
(** *** The outcome of a pipeline run *)




(* ------------------------------------------------------------------ *)
(** *** Characters in names and keys *)

(** Whether the character [c] occurs in [s]. *)
Fixpoint occurs (c : ascii) (s : string) : bool :=
  match s with
  | String c' r => Ascii.eqb c' c || occurs c r
  | EmptyString => false
  end.

(** Whether [s] has two dots in a row. *)
Fixpoint has_dotdot (s : string) : bool :=
  match s with
  | String c r =>
      match r with
      | String c' _ => Ascii.eqb c "." && Ascii.eqb c' "." || has_dotdot r
      | EmptyString => false
      end
  | EmptyString => false
  end.

(* ------------------------------------------------------------------ *)
(** *** Protocols: what a program may do, action by action

    A protocol follows a program along any of its paths: in state [st] the
    action [o] must be [allowed]; the answer [a] it gets is one the protocol
    [expects] of the environment; the protocol moves to [next st o a]. *)

Record protocol (S : Type) := {
  allowed : S -> op -> Prop;
  expects : S -> forall o : op, ans o -> Prop;
  next : S -> forall o : op, ans o -> S;
}.
Arguments allowed {S} _ _ _.
Arguments expects {S} _ _ _ _.
Arguments next {S} _ _ _ _.

(** [p], started in protocol state [st], follows the protocol on every path,
    and ends in a state and with a result that satisfy [Q]. *)
Fixpoint follows {S A} (m : protocol S) (st : S) (p : prog A)
    (Q : S -> result A -> Prop) : Prop :=
  match p with
  | Ret a => Q st (Done a)
  | Raise e => Q st (Raised e)
  | Do o k =>
      allowed m st o ∧
      ∀ a, expects m st o a → follows m (next m st o a) (k a) Q
  end.

(** Every action on every path of [p] satisfies [P]. *)
Fixpoint always {A} (P : op -> Prop) (p : prog A) : Prop :=
  match p with
  | Do o k => P o ∧ ∀ a, always P (k a)
  | _ => True
  end.

(** Actions that neither write the registry, nor draw an identifier, nor
    start a thread. *)
Definition harmless (o : op) : Prop :=
  match o with
  | JobsAssign _ _ | JobsSetItem _ _ _ | Uuid4 | ThreadStart _ => False
  | _ => True
  end.

(** The protocol of the pipeline of job [job_id]; its state is the status the
    registry shows for the job.  The pipeline writes its own job only, each
    status it writes is a transition of the state machine, and an item
    assignment fails exactly when the job is not registered. *)
Definition worker_protocol (job_id : string) : protocol (option string) :=
  {| allowed st o :=
       match o with
       | JobsAssign j d =>
           j = job_id ∧ ∃ x, status_in d = Some x ∧ transition st x = true
       | JobsSetItem j key v =>
           j = job_id ∧
           (key = "status" → st ≠ None →
            ∃ x, v = PStr x ∧ transition st x = true)
       | Uuid4 | ThreadStart _ => False
       | _ => True
       end;
     expects st o :=
       match o return ans o -> Prop with
       | JobsSetItem _ _ _ => fun a =>
           match a with
           | Returns _ => st ≠ None
           | Fails _ _ => st = None
           end
       | _ => fun _ => True
       end;
     next st o _ :=
       match o with
       | JobsAssign _ d => status_in d
       | JobsSetItem _ key v =>
           if String.eqb key "status" then
             match st, v with
             | Some _, PStr x => Some x
             | _, _ => st
             end
           else st
       | _ => st
       end |}.

(** The protocol of a request handler; its state is the identifier it has
    drawn and not yet handed to a pipeline.  A handler never writes the
    registry; it draws an identifier only when it holds none, and starts a
    pipeline only for the identifier it holds. *)
Definition handler_protocol : protocol (option string) :=
  {| allowed own o :=
       match o with
       | JobsAssign _ _ | JobsSetItem _ _ _ => False
       | Uuid4 => own = None
       | ThreadStart a => own = Some (arg_job_id a)
       | _ => True
       end;
     expects _ _ _ := True;
     next own o :=
       match o return ans o -> option string with
       | Uuid4 => fun a => Some a
       | ThreadStart _ => fun _ => None
       | _ => fun _ => own
       end |}.

(* ------------------------------------------------------------------ *)
(** *** The invariant of the running server *)

(** The status values of a registered job. *)
Definition statuses : list string := ["image"; "video"; "completed"; "failed"].

(** Every registered job has a record, and the record has one of the four
    status values. *)
Definition registry_ok (s : system) : Prop :=
  ∀ j r, JOBS s !! j = Some r →
         ∃ d x, heap s !! r = Some d ∧ status_in d = Some x ∧ x ∈ statuses.

(** No record is shared by two jobs. *)
Definition refs_distinct (s : system) : Prop :=
  ∀ j j' r, JOBS s !! j = Some r → JOBS s !! j' = Some r → j = j'.

(** What the invariant asks of one thread: a pipeline holds the identifier of
    its job and follows the worker protocol from the status the registry
    shows for the job; a handler follows the handler protocol and holds the
    identifier it has drawn, if any. *)
Definition thread_ok (owner : gmap string nat) (s : system) (t : nat)
    (th : thread) : Prop :=
  match th with
  | Worker a p =>
      owner !! arg_job_id a = Some t ∧
      follows (worker_protocol (arg_job_id a))
              (job_status_in s (arg_job_id a)) p (fun _ _ => True)
  | Handler _ p =>
      ∃ own, follows handler_protocol own p (fun _ _ => True) ∧
             ∀ x, own = Some x → owner !! x = Some t
  end.

(** The thread [th'] is [th] some actions later. *)
Definition same_thread (th th' : thread) : Prop :=
  match th, th' with
  | Worker a _, Worker a' _ => a = a'
  | Handler r _, Handler r' _ => r = r'
  | _, _ => False
  end.

(** [owner] says which thread holds each identifier drawn so far: the
    handler that drew it, then the pipeline started for it. *)
Definition threads_ok (w : world) (owner : gmap string nat) (s : system) : Prop :=
  (∀ x t, owner !! x = Some t → ∃ n, (n < issued s)%nat ∧ x = uuid4 w n) ∧
  (∀ j, is_Some (JOBS s !! j) →
        ∃ t a p, pool s !! t = Some (Worker a p) ∧ arg_job_id a = j) ∧
  (∀ t th, pool s !! t = Some th → thread_ok owner s t th).

Definition invariant (w : world) (s : system) : Prop :=
  registry_ok s ∧ refs_distinct s ∧ ∃ owner, threads_ok w owner s.

(* ------------------------------------------------------------------ *)
(** *** The lock discipline *)

(** The actions reserved to the holder of the lock: the writes to the
    registry, the lookup of a job in it, and the release of the lock. *)
Definition guarded (o : op) : bool :=
  match o with
  | JobsAssign _ _ | JobsSetItem _ _ _ | JobsGet _ | Release => true
  | _ => false
  end.

(** The actions of code outside any [with JOBS_LOCK] block. *)
Definition unlocked (o : op) : Prop :=
  match o with
  | Acquire | Release | JobsAssign _ _ | JobsSetItem _ _ _ | JobsGet _ => False
  | _ => True
  end.

(** The lock protocol of a thread; its state is whether the thread holds
    the lock.  The lock is taken only when not held, and released, like every
    guarded action, only when held. *)
Definition lock_protocol : protocol bool :=
  {| allowed held o :=
       match o with
       | Acquire => held = false
       | Release | JobsAssign _ _ | JobsSetItem _ _ _ | JobsGet _ =>
           held = true
       | _ => True
       end;
     expects _ _ _ := True;
     next held o _ :=
       match o with
       | Acquire => true
       | Release => false
       | _ => held
       end |}.

(** A thread whose remaining code follows a protocol from state [st], and
    ends in a state that satisfies [Q]. *)
Definition thread_follows {S} (m : protocol S) (st : S) (Q : S -> Prop)
    (th : thread) : Prop :=
  match th with
  | Worker _ p => follows m st p (fun st' _ => Q st')
  | Handler _ p => follows m st p (fun st' _ => Q st')
  end.

(** Every guarded action in the log was performed by the thread that held
    the lock. *)
Definition writes_under_lock (s : system) : Prop :=
  Forall (fun e => guarded (action e) = true → holder e = Some (actor e))
         (log s).

(** The lock is held by a thread of the pool, if held; every thread follows
    the lock protocol from whether it holds the lock, and ends without the
    lock; and the log shows every guarded action under the lock. *)
Definition lock_invariant (s : system) : Prop :=
  (∀ t, JOBS_LOCK s = Some t → (t < length (pool s))%nat) ∧
  (∀ t th, pool s !! t = Some th →
           thread_follows lock_protocol (bool_decide (JOBS_LOCK s = Some t))
             (fun held => held = false) th) ∧
  writes_under_lock s.

(* ================================================================== *)
(** ** A concrete deployment, for examples

    Local storage, a world in which every collaborator answers, identifiers
    drawn as ["0"], ["1"], ... *)

Definition local_cfg (max_mb : Z) : config :=
  {| USE_S3 := false; AWS_REGION := "me-central-1"; S3_BUCKET := "";
     S3_PREFIX := "uae-national-day"; S3_PUBLIC_DOMAIN := "";
     PUBLIC_BASE_URL := ""; MAX_UPLOAD_SIZE_MB := max_mb; ROOT_DIR := "/app" |}.

Definition page (data : bytes) : http_response :=
  {| status_code_of := 200; content := data; header_content_type := None |}.

Definition quiz_bank : list pydict :=
  [ {[ "id" := PNum 1;
       "question" := PStr "Which city is the capital of the UAE?";
       "options" := PList [PStr "Dubai"; PStr "Abu Dhabi"; PStr "Sharjah"];
       "answer" := PStr "Abu Dhabi" ]} ].

Definition fair_world : world :=
  {| nano_banana_edit := fun _ _ => Returns (Some "https://cdn.example/edited.jpeg");
     wans2v := fun _ _ => Returns (Some "https://cdn.example/video.mp4");
     generate_qr_code := fun url => Returns [Byte.x89; Byte.x50; Byte.x4e; Byte.x47];
     get_random_questions := fun _ _ => Returns quiz_bank;
     requests_get := fun _ _ => Returns (page []);
     s3_upload_file := fun _ _ _ => Returns tt;
     s3_put_object := fun _ _ _ => Returns tt;
     s3_generate_presigned_url := fun key _ => Returns ("https://s3.example/" +:+ key);
     s3_head_bucket := fun _ => Returns tt;
     open_wb := fun _ => Returns tt;
     os_remove := fun _ => Returns tt;
     uuid4 := pretty |}.


Definition photo : UploadFile :=
  {| filename := "me.png"; content_type := Some "image/png";
     stream := [[Byte.x89; Byte.x50]; [Byte.x4e; Byte.x47]] |}.

(** A submission handled to its end, then its pipeline run to its end. *)
Definition submit_and_finish : list event :=
  [Arrive (CreateJob photo "Boy" None)]
    ++ repeat (Run 0%nat) 6 ++ repeat (Run 1%nat) 30.

Definition finished : system :=
  run (local_cfg 10) fair_world submit_and_finish boot.

(** A submission handled to its end, its pipeline not yet started. *)
Definition submit_only : list event :=
  [Arrive (CreateJob photo "Boy" None)] ++ repeat (Run 0%nat) 6.




(** S3 storage behind a CDN. *)
Definition cdn_cfg : config :=
  {| USE_S3 := true; AWS_REGION := "me-central-1"; S3_BUCKET := "anthem";
     S3_PREFIX := "uae-national-day";
     S3_PUBLIC_DOMAIN := "https://cdn.example";
     PUBLIC_BASE_URL := ""; MAX_UPLOAD_SIZE_MB := 10; ROOT_DIR := "/app" |}.

(** A submission handled to its end, then the first locked block of its
    pipeline: the job is registered with status [image]. *)
Definition submit_and_register : list event :=
  submit_only ++ repeat (Run 1%nat) 4.

(** The same, stopped inside the locked block: the job is registered and the
    pipeline still holds the lock. *)
Definition submit_and_hold : list event :=
  submit_only ++ repeat (Run 1%nat) 3.

(** A poll that overlaps the end of a pipeline.  The pipeline has stored its
    media when the poll arrives; the poll fetches the job record under the
    lock and releases the lock; the pipeline then takes the lock and writes
    [status] and [video_url]; the poll goes on to read the record. *)
Definition poll_during_completion : list event :=
  submit_only ++ repeat (Run 1%nat) 11
    ++ [Arrive (JobStatus "0")] ++ repeat (Run 2%nat) 3
    ++ repeat (Run 1%nat) 3
    ++ repeat (Run 2%nat) 6.


(** Two submissions, each handled to its end. *)
Definition two_submissions : list event :=
  submit_only
    ++ [Arrive (CreateJob photo "Girl" None)] ++ repeat (Run 2%nat) 6.

(** A grader that counts the answers and finds them all correct, and one
    that forgets the total. *)
Definition lenient_grader (key answers : list pyval) : outcome pydict :=
  Returns {[ "score" := PNum 100;
             "correct" := PNum (Z.of_nat (length answers));
             "total" := PNum (Z.of_nat (length key)) ]}.

Definition careless_grader (key answers : list pyval) : outcome pydict :=
  Returns {[ "score" := PNum 100;
             "correct" := PNum (Z.of_nat (length answers)) ]}.

(** [str] on the values the graders use. *)
Definition format_number (v : pyval) : string :=
  match v with
  | PNum n => pretty n
  | PStr x => x
  | _ => "None"
  end.

Definition quiz_payload : pydict :=
  {[ "key" := PList (PDict <$> quiz_bank);
     "answers" := PList [PStr "Abu Dhabi"] ]}.

(* ================================================================== *)
(** * Properties *)

(* ================================================================== *)
(** ** Uninterrupted runs: how [exec] goes through the control structures *)

Section ExecLemmas.

Context (cfg : config) (w : world).

Lemma exec_bind {A B} t (p : prog A) (f : A -> prog B) s :
  exec cfg w t (bind p f) s =
  match exec cfg w t p s with
  | Some (Done a, s1) => exec cfg w t (f a) s1
  | Some (Raised e, s1) => Some (Raised e, s1)
  | None => None
  end.
Proof.
  revert s. induction p as [a|e|o k IH]; intros s; try reflexivity.
  simpl. destruct (sem cfg w t o s) as [[a s']|]; [apply IH | reflexivity].
Qed.

Lemma exec_try_except {A} t (p : prog A) (h : exn -> prog A) s :
  exec cfg w t (try_except p h) s =
  match exec cfg w t p s with
  | Some (Raised e, s1) => exec cfg w t (h e) s1
  | r => r
  end.
Proof.
  revert s. induction p as [a|e|o k IH]; intros s; try reflexivity.
  simpl. destruct (sem cfg w t o s) as [[a s']|]; [apply IH | reflexivity].
Qed.

Lemma exec_try_finally {A} t (p : prog A) (fin : prog unit) s :
  exec cfg w t (try_finally p fin) s =
  match exec cfg w t p s with
  | Some (r, s1) =>
      match exec cfg w t fin s1 with
      | Some (Done _, s2) => Some (r, s2)
      | Some (Raised e, s2) => Some (Raised e, s2)
      | None => None
      end
  | None => None
  end.
Proof.
  revert s. induction p as [a|e|o k IH]; intros s.
  - simpl. unfold mbind, prog_bind. rewrite exec_bind.
    destruct (exec cfg w t fin s) as [[[?|?] ?]|]; reflexivity.
  - simpl. unfold mbind, prog_bind. rewrite exec_bind.
    destruct (exec cfg w t fin s) as [[[?|?] ?]|]; reflexivity.
  - simpl. destruct (sem cfg w t o s) as [[a s']|]; [apply IH | reflexivity].
Qed.

Lemma exec_Do {A} t (o : op) (k : ans o -> prog A) s :
  exec cfg w t (Do o k) s =
  match sem cfg w t o s with
  | Some (a, s') => exec cfg w t (k a) (account t o (JOBS_LOCK s) s')
  | None => None
  end.
Proof. reflexivity. Qed.

Lemma exec_perform t (o : op) s :
  exec cfg w t (perform o) s =
  match sem cfg w t o s with
  | Some (a, s') => Some (Done a, account t o (JOBS_LOCK s) s')
  | None => None
  end.
Proof. simpl. destruct (sem cfg w t o s) as [[a s']|]; reflexivity. Qed.

Lemma exec_call {A} t (r : outcome A) s :
  exec cfg w t (call r) s =
  Some (match r with
        | Returns a => Done a
        | Fails c m => Raised (PyError c m)
        end, s).
Proof. destruct r; reflexivity. Qed.

End ExecLemmas.

(** Unfold the monad notation and push [exec] through the control
    structures of the program at hand. *)
Ltac exec_through :=
  unfold mbind, prog_bind;
  rewrite ?exec_bind, ?exec_try_finally, ?exec_try_except, ?exec_perform,
    ?exec_call.

(** Symbolic execution in small steps: one rewrite per control structure or
    action, then the effect of the action on the state. *)
Ltac exec_simpl :=
  cbn [sem JOBS heap JOBS_LOCK disk clock issued pool log account set_JOBS
       set_heap set_JOBS_LOCK set_disk set_clock set_issued set_pool set_log
       fst snd];
  cbv beta iota.

Ltac exec_step :=
  progress (unfold mbind, prog_bind, mret, prog_ret, perform;
            rewrite ?exec_bind, ?exec_try_except, ?exec_try_finally, ?exec_Do,
              ?exec_call;
            cbn [exec]; exec_simpl).

Ltac exec_run := repeat exec_step.

(* ================================================================== *)
(** ** Job submission: validation, the size limit and what stays on disk *)

Section Submission.

Context (cfg : config) (w : world).

Lemma upload_size_nonneg chunks : 0 <= upload_size chunks.
Proof.
  induction chunks as [|c rest IH]; simpl; [lia|].
  destruct (Nat.eqb (length c) 0); lia.
Qed.

Lemma alter_app_nil (path : string) (d : gmap string bytes) :
  alter (fun old => old ++ []) path d = d.
Proof.
  apply map_eq. intros i.
  destruct (decide (path = i)) as [<-|]; [|by rewrite lookup_alter_ne].
  rewrite lookup_alter_eq. destruct (d !! path); simpl; by rewrite ?app_nil_r.
Qed.

Lemma alter_app_app (path : string) (a b : bytes) (d : gmap string bytes) :
  alter (fun old => old ++ b) path (alter (fun old => old ++ a) path d)
  = alter (fun old => old ++ (a ++ b)) path d.
Proof.
  apply map_eq. intros i.
  destruct (decide (path = i)) as [<-|]; [|by rewrite !lookup_alter_ne].
  rewrite !lookup_alter_eq.
  destruct (d !! path); simpl; by rewrite ?app_assoc.
Qed.

(** The streaming loop raises 413 exactly when [exceeds] says so, and
    writes the accepted chunks, nothing else. *)
Lemma save_stream_exec t path chunks read s :
  ∃ s' es,
    exec cfg w t (save_stream cfg path chunks read) s
    = Some (if exceeds cfg chunks read
            then Raised (too_large cfg) else Done tt, s') ∧
    same_registry s s' ∧
    disk s' = alter (fun old => old ++ concat (accepted_chunks cfg chunks read))
                    path (disk s) ∧
    log s' = log s ++ es ∧
    action <$> es = FileWrite path <$> accepted_chunks cfg chunks read.
Proof.
  revert read s. induction chunks as [|c rest IH]; intros read s.
  - exists s, []. simpl. rewrite alter_app_nil, app_nil_r. by repeat split.
  - simpl. destruct (Nat.eqb (length c) 0) eqn:Hc.
    + exists s, []. simpl. rewrite alter_app_nil, app_nil_r. by repeat split.
    + destruct (MAX_UPLOAD_SIZE cfg <? read + Z.of_nat (length c)) eqn:Hover.
      * exists s, []. simpl. rewrite alter_app_nil, app_nil_r.
        by repeat split.
      * simpl.
        destruct (IH (read + Z.of_nat (length c))
                    (account t (FileWrite path c) (JOBS_LOCK s)
                       (set_disk (alter (fun old => old ++ c) path (disk s)) s)))
          as (s' & es & Hex & Hreg & Hdisk & Hlog & Hact).
        exists s', ({| actor := t; holder := JOBS_LOCK s;
                       action := FileWrite path c |} :: es).
        rewrite Hex. split; [done|].
        split; [exact Hreg|]. split.
        { rewrite Hdisk. simpl. apply alter_app_app. }
        split.
        { rewrite Hlog. simpl. by rewrite <- app_assoc. }
        rewrite !fmap_cons. by rewrite Hact.
Qed.

(** Started within the limit, the loop breaks off exactly when the whole
    upload is larger than the limit. *)
Lemma exceeds_spec chunks read :
  read <= MAX_UPLOAD_SIZE cfg →
  exceeds cfg chunks read = (MAX_UPLOAD_SIZE cfg <? read + upload_size chunks).
Proof.
  revert read. induction chunks as [|c rest IH]; intros read Hread; simpl.
  - rewrite Z.add_0_r. symmetry. apply Z.ltb_ge. lia.
  - destruct (Nat.eqb (length c) 0).
    + rewrite Z.add_0_r. symmetry. apply Z.ltb_ge. lia.
    + pose proof (upload_size_nonneg rest).
      destruct (Z.ltb_spec (MAX_UPLOAD_SIZE cfg) (read + Z.of_nat (length c))).
      * symmetry. apply Z.ltb_lt. lia.
      * rewrite IH by lia. by rewrite Z.add_assoc.
Qed.

End Submission.

Section SubmissionRun.

Context (cfg : config) (w : world).

Lemma create_job_invalid_age t image age_group phone s :
  age_group ∉ age_groups →
  exec cfg w t (create_job cfg w image age_group phone) s
  = Some (Raised (HTTPException 400 "Invalid age_group"), s).
Proof.
  intros Hage. unfold create_job.
  by rewrite bool_decide_eq_false_2.
Qed.

Lemma create_job_invalid_type t image age_group phone s :
  age_group ∈ age_groups → content_type image ∉ image_types →
  exec cfg w t (create_job cfg w image age_group phone) s
  = Some (Raised (HTTPException 400 "Only JPEG/PNG images are accepted"), s).
Proof.
  intros Hage Hct. unfold create_job.
  rewrite bool_decide_eq_true_2 by done.
  by rewrite bool_decide_eq_false_2.
Qed.

(** Once the checks pass, the handler draws an id, opens the upload file
    and streams the chunks; [after_stream] says what comes next. *)
Lemma create_job_valid t image age_group phone s :
  age_group ∈ age_groups → content_type image ∈ image_types →
  let job_id := uuid4 w (issued s) in
  let path := upload_path_for cfg image job_id in
  let args := {| arg_job_id := job_id; arg_img_path := path;
                 arg_age_group := age_group; arg_phone := phone |} in
  ∃ r s' es,
    exec cfg w t (create_job cfg w image age_group phone) s = Some (r, s') ∧
    JOBS s' = JOBS s ∧ heap s' = heap s ∧ JOBS_LOCK s' = JOBS_LOCK s ∧
    issued s' = S (issued s) ∧
    log s' = log s ++ es ∧
    match open_wb w path with
    | Fails c m =>
        r = Raised (PyError c m) ∧ pool s' = pool s ∧ disk s' = disk s ∧
        action <$> es = [Uuid4; OpenWb path (Fails c m); UploadClose]
    | Returns _ =>
        disk s'
        = <[path := concat (accepted_chunks cfg (stream image) 0)]> (disk s) ∧
        if exceeds cfg (stream image) 0 then
          r = Raised (too_large cfg) ∧ pool s' = pool s ∧
          action <$> es
          = [Uuid4; OpenWb path (Returns tt)]
              ++ (FileWrite path <$> accepted_chunks cfg (stream image) 0)
              ++ [UploadClose]
        else
          r = Done (JSONResponse 200 (PDict {[ "job_id" := PStr job_id ]})) ∧
          pool s' = pool s ++ [worker cfg w args] ∧
          action <$> es
          = [Uuid4; OpenWb path (Returns tt)]
              ++ (FileWrite path <$> accepted_chunks cfg (stream image) 0)
              ++ [UploadClose; ThreadStart args]
    end.
Proof.
  intros Hage Hct job_id path args. unfold create_job.
  rewrite !bool_decide_eq_true_2 by done. simpl.
  fold job_id. fold path. fold args.
  destruct (open_wb w path) as [[]|c m].
  - exec_through. simpl bind.
    destruct (save_stream_exec cfg w t path (stream image) 0
                (account t (OpenWb path (Returns ())) (JOBS_LOCK s)
                   (set_disk (<[path:=[]]> (disk s))
                      (account t Uuid4 (JOBS_LOCK s)
                         (set_issued (S (issued s)) s)))))
      as (s1 & es & Hex & (HJ & Hh & HL & Hp & Hi) & Hdisk & Hlog & Hact).
    rewrite Hex. simpl in *.
    destruct (exceeds cfg (stream image) 0); simpl.
    + eexists _, _, _. split; [reflexivity|]. simpl.
      rewrite HJ, Hh, HL, Hi, Hlog, Hdisk, Hp, alter_insert_eq.
      repeat split; try done.
      * rewrite <- !app_assoc. reflexivity.
      * rewrite !fmap_app, Hact. reflexivity.
    + eexists _, _, _. split; [reflexivity|]. simpl.
      rewrite HJ, Hh, HL, Hi, Hlog, Hdisk, Hp, alter_insert_eq.
      repeat split; try done.
      * rewrite <- !app_assoc. reflexivity.
      * rewrite !fmap_app, Hact. simpl. by rewrite <- ?app_assoc.
  - exec_through. simpl.
    eexists _, _, _. split; [reflexivity|]. simpl.
    repeat split; try done.
    + rewrite <- !app_assoc. reflexivity.
    + reflexivity.
Qed.

End SubmissionRun.

(** Membership in a list given by its elements. *)
Ltac in_list :=
  rewrite !elem_of_cons; repeat (first [left; reflexivity | right]).

Section SubmissionClaims.

Context (cfg : config) (w : world).

(** C5.  A submission whose category is outside the four-value set or whose
    content type is outside the JPEG/PNG list is answered 400; one that passes
    both checks and whose upload is larger than the configured maximum is
    answered 413 (the maximum being non-negative and the upload file having
    been opened); whenever the answer is 400 or 413 the registry is as it was
    and no pipeline thread was started. *)
Theorem create_job_rejections t image age_group phone s :
  ∃ resp s',
    exec cfg w t (serve (create_job cfg w image age_group phone)) s
    = Some (Done resp, s') ∧
    (age_group ∉ age_groups ∨ content_type image ∉ image_types →
     status_of resp = 400) ∧
    (age_group ∈ age_groups → content_type image ∈ image_types →
     0 <= MAX_UPLOAD_SIZE_MB cfg →
     open_wb w (upload_path_for cfg image (uuid4 w (issued s))) = Returns tt →
     MAX_UPLOAD_SIZE cfg < upload_size (stream image) →
     status_of resp = 413) ∧
    (status_of resp = 400 ∨ status_of resp = 413 →
     JOBS s' = JOBS s ∧ heap s' = heap s ∧ pool s' = pool s).
Proof.
  unfold serve. rewrite exec_try_except.
  destruct (decide (age_group ∈ age_groups)) as [Hage|Hage].
  2:{ rewrite create_job_invalid_age by done. simpl.
      eexists _, s. split; [reflexivity|]. simpl.
      split; [done|]. split; [done|]. done. }
  destruct (decide (content_type image ∈ image_types)) as [Hct|Hct].
  2:{ rewrite create_job_invalid_type by done. simpl.
      eexists _, s. split; [reflexivity|]. simpl.
      split; [done|]. split; [done|]. done. }
  destruct (create_job_valid cfg w t image age_group phone s Hage Hct)
    as (r & s1 & es & Hex & HJ & Hh & HL & Hi & Hlog & Hcases).
  rewrite Hex.
  destruct (open_wb w (upload_path_for cfg image (uuid4 w (issued s))))
    as [[]|c m] eqn:Hopen.
  - destruct Hcases as [Hdisk Hcases].
    destruct (exceeds cfg (stream image) 0) eqn:Hexc.
    + destruct Hcases as (-> & Hp & Hact). simpl.
      eexists _, s1. split; [reflexivity|]. simpl.
      split; [intros [?|?]; done|]. split; [done|]. done.
    + destruct Hcases as (-> & Hp & Hact).
      eexists _, s1. split; [reflexivity|]. simpl.
      split; [intros [?|?]; done|]. split; [|intros [?|?]; done].
      intros _ _ Hmax _ Hbig.
      rewrite exceeds_spec in Hexc by (unfold MAX_UPLOAD_SIZE; lia).
      apply Z.ltb_ge in Hexc. lia.
  - destruct Hcases as (-> & Hp & Hdisk & Hact). simpl.
    eexists _, s1. split; [reflexivity|]. simpl.
    split; [intros [?|?]; done|]. split; [done|]. done.
Qed.


End SubmissionClaims.

(** With a limit of 0 MB the four-byte photo is too large: the submission is
    answered 413 and nothing is started. *)
Lemma create_job_rejections_witness :
  ∃ resp s',
    exec (local_cfg 0) fair_world 0
      (serve (create_job (local_cfg 0) fair_world photo "Boy" None)) boot
    = Some (Done resp, s') ∧
    status_of resp = 413 ∧ JOBS s' = ∅ ∧ pool s' = [].
Proof.
  destruct (create_job_rejections (local_cfg 0) fair_world 0%nat photo "Boy"
              None boot) as (resp & s' & Hex & _ & H413 & Hframe).
  assert (status_of resp = 413) as Hstatus.
  { apply H413.
    - unfold age_groups. in_list.
    - unfold image_types. in_list.
    - simpl. lia.
    - reflexivity.
    - vm_compute. reflexivity. }
  exists resp, s'. split; [exact Hex|]. split; [exact Hstatus|].
  destruct Hframe as (HJ & _ & Hp); [by right|]. by rewrite HJ, Hp.
Defined.


(* ================================================================== *)
(** ** The QR endpoint *)

(** The endpoint stops with its 404: the answer is what the framework makes
    of the exception, and it remains to show why no QR code is available. *)
Ltac refused :=
  eexists _, _; split; [reflexivity|]; simpl;
  match goal with
  | |- (_ ↔ ?P) ∧ _ =>
      cut P; [intros HP; split; [done|]; intros ? ? Hn; by destruct Hn|]
  end.

Section QrClaims.

Context (cfg : config) (w : world).

(** C6.  Run on a state whose lock is free, the QR endpoint answers 404
    exactly when the job is absent from the registry, or its status is not
    [completed], or its video URL is unset or empty; otherwise, the QR
    generator having produced the PNG for the job's video URL, it answers with
    that PNG as [image/png] and a one-hour [Cache-Control] header. *)
Theorem job_qr_answers t job_id s :
  JOBS_LOCK s = None →
  ∃ resp s',
    exec cfg w t (serve (job_qr w job_id)) s = Some (Done resp, s') ∧
    (status_of resp = 404 ↔ qr_unavailable s job_id) ∧
    (∀ url png,
       ¬ qr_unavailable s job_id →
       job_field s job_id "video_url" = PStr url →
       generate_qr_code w url = Returns png →
       resp = StreamingResponse png "image/png"
                [("Cache-Control", "public, max-age=3600")]).
Proof.
  intros Hfree.
  unfold serve, job_qr, with_JOBS_LOCK, qr_unavailable, job_field, job_record,
    dict_get, dict_getitem.
  repeat (exec_run; rewrite ?Hfree).
  destruct (JOBS s !! job_id) as [r|] eqn:Hr; cbn [mbind option_bind]; exec_run.
  2:{ refused. by left. }
  destruct (heap s !! r) as [d|] eqn:Hd; exec_run.
  2:{ refused. right. by left. }
  destruct (size d =? 0)%nat eqn:Hsz; cbn [negb]; exec_run.
  { apply Nat.eqb_eq, map_size_empty_iff in Hsz. subst d.
    refused. right. by left. }
  rewrite ?Hd. cbn [mbind option_bind].
  destruct (is_str (default PNone (d !! "status")) "completed") eqn:Hst;
    cbn [negb]; exec_run.
  2:{ refused. right. by left. }
  rewrite ?Hd. cbn [mbind option_bind].
  destruct (truthy (default PNone (d !! "video_url"))) eqn:Hv;
    cbn [negb]; exec_run.
  2:{ refused. right. by right. }
  rewrite ?Hd. cbn [mbind option_bind].
  destruct (d !! "video_url") as [v|] eqn:Hvu; [|done].
  cbn [default] in *. exec_run.
  destruct v as [|b|url|n|l|m]; try discriminate Hv; exec_run.
  1,3,4,5:
    (eexists _, _; split; [reflexivity|]; cbn [status_of]; split;
     [split; [intros [=] | intros [?|[?|?]]; discriminate]
     | intros ? ? _ [=]]).
  destruct (generate_qr_code w url) as [png|c m] eqn:Hqr; exec_run.
  - eexists _, _. split; [reflexivity|]. cbn [status_of]. split.
    + split; [intros [=] | intros [?|[?|?]]; discriminate].
    + intros url' png' _ [= <-]. rewrite Hqr. by intros [= <-].
  - eexists _, _. split; [reflexivity|]. cbn [status_of]. split.
    + split; [intros [=] | intros [?|[?|?]]; discriminate].
    + intros url' png' _ [= <-]. by rewrite Hqr.
Qed.

End QrClaims.

Lemma job_qr_answers_witness :
  ∃ resp s',
    exec (local_cfg 10) fair_world 2 (serve (job_qr fair_world "0")) finished
    = Some (Done resp, s') ∧
    resp = StreamingResponse [Byte.x89; Byte.x50; Byte.x4e; Byte.x47] "image/png"
             [("Cache-Control", "public, max-age=3600")].
Proof.
  assert (JOBS_LOCK finished = None) as Hfree by (vm_compute; reflexivity).
  destruct (job_qr_answers (local_cfg 10) fair_world 2%nat "0" finished Hfree)
    as (resp & s' & Hex & _ & Hpng).
  exists resp, s'. split; [exact Hex|].
  apply (Hpng "/media/videos/0.mp4").
  - intros [H|[H|H]]; vm_compute in H; discriminate H.
  - vm_compute. reflexivity.
  - reflexivity.
Defined.

(* ================================================================== *)
(** ** The quiz-questions endpoint *)

Lemma sanitize_ret (q : pydict) :
  (∀ k, k ∈ client_fields → is_Some (q !! k)) →
  ∃ q', sanitize q = Ret q' ∧
        dom q' = list_to_set client_fields ∧
        ∀ k, k ∈ client_fields → q' !! k = q !! k.
Proof.
  intros Hq. unfold sanitize.
  destruct (Hq "id") as [i Hi]; [unfold client_fields; in_list|].
  destruct (Hq "question") as [x Hx]; [unfold client_fields; in_list|].
  destruct (Hq "options") as [o Ho]; [unfold client_fields; in_list|].
  rewrite Hi, Hx, Ho. eexists. split; [reflexivity|]. split.
  - rewrite !dom_insert_L, dom_singleton_L. cbn. by rewrite union_empty_r_L.
  - intros k. unfold client_fields. rewrite !elem_of_cons, elem_of_nil.
    intros [->|[->|[->|[]]]]; by vm_compute.
Qed.

Lemma sanitize_all_ret (qs : list pydict) :
  Forall (fun q => ∀ k, k ∈ client_fields → is_Some (q !! k)) qs →
  ∃ sanitized,
    sanitize_all qs = Ret sanitized ∧
    Forall2 (fun q q' => dom q' = list_to_set client_fields ∧
                         ∀ k, k ∈ client_fields → q' !! k = q !! k)
            qs sanitized.
Proof.
  induction 1 as [|q qs Hq Hqs (sanitized & Heq & Hall)].
  - exists []. split; [reflexivity | constructor].
  - destruct (sanitize_ret q Hq) as (q' & Hq' & Hdom).
    exists (q' :: sanitized). split; [|by constructor].
    cbn [sanitize_all]. rewrite Hq', Heq. reflexivity.
Qed.

(** C3, as the code has it.  The bank having supplied questions that carry
    the three client-visible fields, the endpoint answers with two lists:
    [questions], one record per question with exactly the fields id, question
    and options, taken from the bank's record; and [key], the bank's records
    themselves, every field included. *)
Theorem get_questions_answer cfg w t count seed qs s :
  get_random_questions w count seed = Returns qs →
  Forall (fun q => ∀ k, k ∈ client_fields → is_Some (q !! k)) qs →
  ∃ sanitized,
    exec cfg w t (serve (get_questions w count seed)) s
    = Some (Done (JSONResponse 200 (PDict
              {[ "questions" := PList (PDict <$> sanitized);
                 "key" := PList (PDict <$> qs) ]})), s) ∧
    Forall2 (fun q q' => dom q' = list_to_set client_fields ∧
                         ∀ k, k ∈ client_fields → q' !! k = q !! k)
            qs sanitized.
Proof.
  intros Hbank Hqs.
  destruct (sanitize_all_ret qs Hqs) as (sanitized & Heq & Hall).
  exists sanitized. split; [|exact Hall].
  unfold serve, get_questions. rewrite Hbank.
  unfold mbind, prog_bind. cbn [call bind]. rewrite Heq. reflexivity.
Qed.

Lemma get_questions_answer_witness :
  ∃ sanitized,
    exec (local_cfg 10) fair_world 0
      (serve (get_questions fair_world 1 None)) boot
    = Some (Done (JSONResponse 200 (PDict
              {[ "questions" := PList (PDict <$> sanitized);
                 "key" := PList (PDict <$> quiz_bank) ]})), boot) ∧
    Forall2 (fun q q' => dom q' = list_to_set client_fields ∧
                         ∀ k, k ∈ client_fields → q' !! k = q !! k)
            quiz_bank sanitized.
Proof.
  apply (get_questions_answer (local_cfg 10) fair_world 0%nat 1 None quiz_bank
           boot).
  - reflexivity.
  - unfold quiz_bank. constructor; [|constructor].
    intros k. unfold client_fields. rewrite !elem_of_cons, elem_of_nil.
    intros [->|[->|[->|[]]]]; vm_compute; eauto.
Defined.

(** C3, as the claim has it, fails: with a bank whose records hold the
    correct answer, the response carries that answer under [key]. *)
Lemma get_questions_sends_answers :
  ∃ resp s',
    exec (local_cfg 10) fair_world 0
      (serve (get_questions fair_world 1 None)) boot
    = Some (Done resp, s') ∧
    ¬ answers_withheld resp.
Proof.
  eexists _, _. split; [vm_compute; reflexivity|].
  intros Hwithheld.
  specialize (Hwithheld "key" _ eq_refl). cbn in Hwithheld.
  apply Forall_cons_1 in Hwithheld as [Hq _].
  assert ("answer" ∈ (list_to_set client_fields : gset string)) as Hin.
  { apply Hq. apply elem_of_dom. vm_compute. eauto. }
  unfold client_fields in Hin.
  rewrite elem_of_list_to_set, !elem_of_cons, elem_of_nil in Hin.
  destruct Hin as [?|[?|[?|[]]]]; discriminate.
Qed.

(* ================================================================== *)
(** ** An uninterrupted pipeline run *)


Section PipelineRun.

Context (cfg : config) (w : world).





























End PipelineRun.

Section PipelineClaims.

Context (cfg : config) (w : world).




End PipelineClaims.



(* ================================================================== *)
(** ** Protocols: rules for the control structures *)

Section ProtocolRules.

Context {S : Type} (m : protocol S).

Lemma follows_mono {A} st (p : prog A) (Q Q' : S → result A → Prop) :
  (∀ st' r, Q st' r → Q' st' r) → follows m st p Q → follows m st p Q'.
Proof.
  intros HQ. revert st. induction p as [a|e|o k IH]; intros st; cbn; auto.
  intros [Ho Hk]. split; [done|]. intros a Ha. by apply IH, Hk.
Qed.

Lemma follows_bind {A B} st (p : prog A) (f : A → prog B) Q :
  follows m st p (fun st' r =>
                    match r with
                    | Done a => follows m st' (f a) Q
                    | Raised e => Q st' (Raised e)
                    end) →
  follows m st (bind p f) Q.
Proof.
  revert st. induction p as [a|e|o k IH]; intros st; cbn; auto.
  intros [Ho Hk]. split; [done|]. intros a Ha. by apply IH, Hk.
Qed.

Lemma follows_try_except {A} st (p : prog A) (h : exn → prog A) Q :
  follows m st p (fun st' r =>
                    match r with
                    | Done a => Q st' (Done a)
                    | Raised e => follows m st' (h e) Q
                    end) →
  follows m st (try_except p h) Q.
Proof.
  revert st. induction p as [a|e|o k IH]; intros st; cbn; auto.
  intros [Ho Hk]. split; [done|]. intros a Ha. by apply IH, Hk.
Qed.

Lemma follows_try_finally {A} st (p : prog A) (fin : prog unit) Q :
  follows m st p (fun st' r =>
                    follows m st' fin (fun st'' r' =>
                      match r' with
                      | Done _ => Q st'' r
                      | Raised e' => Q st'' (Raised e')
                      end)) →
  follows m st (try_finally p fin) Q.
Proof.
  revert st. induction p as [a|e|o k IH]; intros st; cbn.
  - intros H. apply follows_bind. revert H. apply follows_mono.
    by intros st' [[]|e'].
  - intros H. apply follows_bind. revert H. apply follows_mono.
    by intros st' [[]|e'].
  - intros [Ho Hk]. split; [done|]. intros a Ha. by apply IH, Hk.
Qed.

Lemma follows_call {A} st (r : outcome A) (Q : S → result A → Prop) :
  (∀ a, r = Returns a → Q st (Done a)) →
  (∀ c msg, r = Fails c msg → Q st (Raised (PyError c msg))) →
  follows m st (call r) Q.
Proof. destruct r; cbn; auto. Qed.

Lemma follows_perform st (o : op) (Q : S → result (ans o) → Prop) :
  allowed m st o →
  (∀ a, expects m st o a → Q (next m st o a) (Done a)) →
  follows m st (perform o) Q.
Proof. by split. Qed.

(** A program all of whose actions are allowed in every state and leave the
    protocol state alone follows the protocol without moving it. *)
Lemma follows_always {A} (P : op → Prop) st (p : prog A) :
  (∀ st o, P o → allowed m st o ∧ ∀ a, next m st o a = st) →
  always P p → follows m st p (fun st' _ => st' = st).
Proof.
  intros HP. induction p as [a|e|o k IH]; cbn; auto.
  intros [Ho Hk]. destruct (HP st o Ho) as [Hallowed Hnext].
  split; [done|]. intros a _. rewrite Hnext. by apply IH.
Qed.

End ProtocolRules.

Section AlwaysRules.

Context (P : op → Prop).

Lemma always_bind {A B} (p : prog A) (f : A → prog B) :
  always P p → (∀ a, always P (f a)) → always P (bind p f).
Proof.
  intros Hp Hf. induction p as [a|e|o k IH]; cbn; auto.
  destruct Hp as [Ho Hk]. split; [done|]. intros a. by apply IH.
Qed.

Lemma always_try_except {A} (p : prog A) (h : exn → prog A) :
  always P p → (∀ e, always P (h e)) → always P (try_except p h).
Proof.
  intros Hp Hh. induction p as [a|e|o k IH]; cbn; auto.
  destruct Hp as [Ho Hk]. split; [done|]. intros a. by apply IH.
Qed.

Lemma always_try_finally {A} (p : prog A) (fin : prog unit) :
  always P p → always P fin → always P (try_finally p fin).
Proof.
  intros Hp Hfin. induction p as [a|e|o k IH]; cbn.
  - by apply always_bind.
  - by apply always_bind.
  - destruct Hp as [Ho Hk]. split; [done|]. intros a. by apply IH.
Qed.

Lemma always_call {A} (r : outcome A) : always P (call r).
Proof. by destruct r. Qed.

Lemma always_perform (o : op) : P o → always P (perform o).
Proof. by split. Qed.

End AlwaysRules.

(** Prove [always P p] by following the structure of [p]. *)
Ltac always_go :=
  repeat
    (unfold mbind, prog_bind, mret, prog_ret;
     lazymatch goal with
     | |- always _ (bind _ _) => apply always_bind; [|intros ?]
     | |- always _ (try_except _ _) => apply always_try_except; [|intros ?]
     | |- always _ (try_finally _ _) => apply always_try_finally
     | |- always _ (call _) => apply always_call
     | |- always _ (perform _) => apply always_perform; exact I
     | |- always _ (Ret _) => exact I
     | |- always _ (Raise _) => exact I
     | |- always _ (Do _ _) => split; [exact I | intros ?]
     | |- always _ (match ?x with _ => _ end) => destruct x
     | |- always _ (let '(_, _) := ?x in _) => destruct x
     end).

(* ================================================================== *)
(** ** The conduct of the endpoints and of the pipeline *)

Section Conduct.

Context (cfg : config) (w : world).

Lemma save_stream_harmless path chunks read :
  always harmless (save_stream cfg path chunks read).
Proof.
  revert read. induction chunks as [|c rest IH]; intros read; [exact I|].
  cbn [save_stream]. destruct (Nat.eqb (length c) 0); [exact I|].
  destruct (MAX_UPLOAD_SIZE cfg <? read + Z.of_nat (length c)); [exact I|].
  always_go. apply IH.
Qed.

Lemma sanitize_all_harmless qs : always harmless (sanitize_all qs).
Proof.
  induction qs as [|q qs IH]; [exact I|].
  cbn [sanitize_all]. unfold sanitize. always_go; apply IH.
Qed.

Lemma count_active_harmless jobs : always harmless (count_active jobs).
Proof.
  induction jobs as [|j jobs IH]; [exact I|].
  cbn [count_active]. unfold dict_getitem. always_go; apply IH.
Qed.

Lemma job_status_harmless job_id : always harmless (job_status job_id).
Proof.
  unfold job_status, with_JOBS_LOCK, dict_getitem, dict_get. always_go.
Qed.

Lemma job_qr_harmless job_id : always harmless (job_qr w job_id).
Proof.
  unfold job_qr, with_JOBS_LOCK, dict_getitem, dict_get. always_go.
Qed.

Lemma get_questions_harmless count seed :
  always harmless (get_questions w count seed).
Proof.
  unfold get_questions. always_go. apply sanitize_all_harmless.
Qed.

Lemma healthz_harmless : always harmless (healthz cfg w).
Proof.
  unfold healthz. always_go; try apply count_active_harmless.
Qed.

Lemma write_file_harmless path data : always harmless (write_file w path data).
Proof. unfold write_file. always_go. Qed.

Lemma store_media_harmless job_id img_path edited_img_url video_url_remote :
  always harmless
    (store_media cfg w job_id img_path edited_img_url video_url_remote).
Proof.
  unfold store_media, _s3_put_file, _s3_put_bytes, _s3_url_for_key,
    _save_local_image, _save_local_video.
  always_go; apply write_file_harmless.
Qed.

Lemma pipeline_finally_harmless img_path :
  always harmless (pipeline_finally w img_path).
Proof. unfold pipeline_finally. always_go. Qed.

Lemma harmless_for_handler (st : option string) (o : op) :
  harmless o →
  allowed handler_protocol st o ∧ ∀ a, next handler_protocol st o a = st.
Proof. by destruct o. Qed.

Lemma harmless_for_worker job_id (st : option string) (o : op) :
  harmless o →
  allowed (worker_protocol job_id) st o ∧
  ∀ a, next (worker_protocol job_id) st o a = st.
Proof. by destruct o. Qed.

(** A harmless endpoint follows the handler protocol from any state. *)
Lemma harmless_conduct {A} own (p : prog A) :
  always harmless p → follows handler_protocol own p (fun _ _ => True).
Proof.
  intros Hp. eapply follows_mono; [|apply (follows_always _ harmless)]; try done.
  apply harmless_for_handler.
Qed.

Lemma create_job_conduct image age_group phone :
  follows handler_protocol None (create_job cfg w image age_group phone)
          (fun _ _ => True).
Proof.
  unfold create_job.
  destruct (negb (bool_decide (age_group ∈ age_groups))); [exact I|].
  destruct (negb (bool_decide (content_type image ∈ image_types))); [exact I|].
  unfold mbind, prog_bind. apply follows_bind, follows_perform; [done|].
  intros job_id _. cbn [next handler_protocol]. apply follows_bind.
  eapply follows_mono;
    [|apply (follows_always _ harmless); [apply harmless_for_handler|]].
  - intros st' [[]|e] ->; [|exact I].
    apply follows_bind, follows_perform; [done|]. by intros [] _.
  - always_go. apply save_stream_harmless.
Qed.

(** Every endpoint, as served, follows the handler protocol. *)
Lemma endpoint_conduct (r : request) :
  follows handler_protocol None (serve (endpoint cfg w r)) (fun _ _ => True).
Proof.
  unfold serve. apply follows_try_except.
  eapply follows_mono with (Q := fun _ _ => True).
  { intros st' [a|[c d|c msg]] _; exact I. }
  destruct r as [image age_group phone|job_id|job_id|count seed|]; cbn [endpoint].
  - apply create_job_conduct.
  - apply harmless_conduct, job_status_harmless.
  - apply harmless_conduct, job_qr_harmless.
  - apply harmless_conduct, get_questions_harmless.
  - apply harmless_conduct, healthz_harmless.
Qed.

Lemma status_in_image_record phone now :
  status_in (image_record phone now) = Some "image".
Proof. by vm_compute. Qed.

Lemma status_in_failed_record e phone now :
  status_in (failed_record e phone now) = Some "failed".
Proof. by vm_compute. Qed.

(** One step along the structure of a program that is to follow the worker
    protocol. *)
Ltac follow_step :=
  unfold mbind, prog_bind, mret, prog_ret;
  lazymatch goal with
  | |- follows _ _ (bind _ _) _ => apply follows_bind
  | |- follows _ _ (try_except _ _) _ => apply follows_try_except
  | |- follows _ _ (try_finally _ _) _ => apply follows_try_finally
  | |- follows _ _ (with_JOBS_LOCK _) _ => unfold with_JOBS_LOCK
  | |- follows _ _ (jobs_setitem _ _ _) _ => unfold jobs_setitem
  | |- follows _ _ (pipeline_except _ _ _) _ => unfold pipeline_except
  | |- follows ?m _ (store_media _ _ _ _ _ _) _ =>
      eapply follows_mono;
      [|apply (follows_always m harmless);
        [apply harmless_for_worker | apply store_media_harmless]];
      cbv beta; intros ? ? ->
  | |- follows ?m _ (pipeline_finally _ _) _ =>
      eapply follows_mono;
      [|apply (follows_always m harmless);
        [apply harmless_for_worker | apply pipeline_finally_harmless]];
      cbv beta; intros ? ? ->
  | |- follows _ _ (perform _) _ =>
      apply follows_perform;
      [ cbn [allowed worker_protocol];
        rewrite ?status_in_image_record, ?status_in_failed_record;
        try done; try (split; [done|]; eauto)
      | let a := fresh "a" in
        let Ha := fresh "Ha" in
        intros a Ha;
        cbn [next expects worker_protocol String.eqb Ascii.eqb Bool.eqb] in Ha |- *;
        rewrite ?status_in_image_record, ?status_in_failed_record ]
  | |- follows _ _ (call ?r) _ => destruct r; cbn [call]
  | |- follows _ _ (Ret _) _ => cbn [follows]
  | |- follows _ _ (Raise _) _ => cbn [follows]
  | |- follows _ _ (match ?x with _ => _ end) _ => destruct x
  | |- match ?x with _ => _ end => destruct x
  | |- True => exact I
  end;
  cbv beta iota; try discriminate; try done.

Lemma pipeline_conduct job_id img_path age_group phone :
  follows (worker_protocol job_id) None
          (_run_pipeline cfg w job_id img_path age_group phone)
          (fun _ _ => True).
Proof.
  unfold _run_pipeline, pipeline_body.
  repeat follow_step.
Qed.

End Conduct.

(* ================================================================== *)
(** ** The invariant of the running server *)

Section ServerInvariant.

Context (cfg : config) (w : world).
Hypothesis uuid4_inj : Inj (=) (=) (uuid4 w).

Lemma transition_known st x : transition st x = true → x ∈ statuses.
Proof.
  unfold transition, statuses. intros Htrans.
  assert (x = "image" ∨ x = "video" ∨ x = "completed" ∨ x = "failed") as Hx.
  { destruct st as [cur|].
    - repeat (apply orb_prop in Htrans as [Htrans|Htrans]
              || apply andb_prop in Htrans as [_ Htrans]);
        apply String.eqb_eq in Htrans; auto.
    - apply String.eqb_eq in Htrans. auto. }
  rewrite !elem_of_cons. tauto.
Qed.

Lemma job_status_in_Some s j r d :
  JOBS s !! j = Some r → heap s !! r = Some d →
  job_status_in s j = status_in d.
Proof.
  intros Hj Hr. unfold job_status_in, job_record. rewrite Hj. cbn. by rewrite Hr.
Qed.

Lemma job_status_in_None s j : JOBS s !! j = None → job_status_in s j = None.
Proof. intros Hj. unfold job_status_in, job_record. by rewrite Hj. Qed.

Lemma job_status_in_ext s s' j :
  JOBS s' = JOBS s → heap s' = heap s → job_status_in s' j = job_status_in s j.
Proof. intros HJ Hh. unfold job_status_in, job_record. by rewrite HJ, Hh. Qed.

Lemma registry_ok_ext s s' :
  JOBS s' = JOBS s → heap s' = heap s → registry_ok s → registry_ok s'.
Proof. intros HJ Hh Hok j r. rewrite HJ, Hh. apply Hok. Qed.

Lemma refs_distinct_ext s s' :
  JOBS s' = JOBS s → refs_distinct s → refs_distinct s'.
Proof. intros HJ Hd j j' r. rewrite HJ. apply Hd. Qed.

(** A step of thread [t] that leaves the registry and the identifiers
    alone. *)
Lemma threads_ok_quiet_step owner s s1 t th th' :
  threads_ok w owner s →
  pool s !! t = Some th → same_thread th th' →
  JOBS s1 = JOBS s → heap s1 = heap s → issued s1 = issued s →
  pool s1 = <[t := th']> (pool s) →
  thread_ok owner s t th' →
  threads_ok w owner s1.
Proof.
  intros (Hissued & Hkeys & Hthreads) Ht Hsame HJ Hh Hi Hp Hth'.
  split_and!.
  - intros x t0 Hx. rewrite Hi. by eapply Hissued.
  - intros j Hj. rewrite HJ in Hj.
    destruct (Hkeys j Hj) as (t0 & a & p & Ht0 & Ha).
    destruct (decide (t0 = t)) as [->|Hne].
    + rewrite Ht in Ht0. injection Ht0 as ->.
      destruct th' as [a' p'|]; [|done]. cbn in Hsame. subst a'.
      exists t, a, p'. split; [|done].
      rewrite Hp. apply list_lookup_insert_eq. by eapply lookup_lt_Some.
    + exists t0, a, p. split; [|done].
      rewrite Hp. by rewrite list_lookup_insert_ne.
  - intros t0 th0. rewrite Hp. intros Ht0.
    apply list_lookup_insert_Some in Ht0 as [(<- & <- & _)|(Hne & Ht0)].
    + destruct th' as [a' p'|r' p']; cbn in Hth' |- *.
      * by rewrite (job_status_in_ext s s1) by done.
      * done.
    + specialize (Hthreads t0 th0 Ht0). destruct th0 as [a0 p0|r0 p0]; cbn in *.
      * by rewrite (job_status_in_ext s s1) by done.
      * done.
Qed.

Lemma moved_refl st : moved st st.
Proof. by left. Qed.

(** The same, with the whole invariant and the statuses. *)
Lemma quiet_step_invariant owner s s1 t th th' :
  registry_ok s → refs_distinct s → threads_ok w owner s →
  pool s !! t = Some th → same_thread th th' →
  JOBS s1 = JOBS s → heap s1 = heap s → issued s1 = issued s →
  pool s1 = <[t := th']> (pool s) →
  thread_ok owner s t th' →
  invariant w s1 ∧ ∀ j, moved (job_status_in s j) (job_status_in s1 j).
Proof.
  intros Hok Hdist Hthreads Ht Hsame HJ Hh Hi Hp Hth'. split.
  - split_and!.
    + by eapply registry_ok_ext.
    + by eapply refs_distinct_ext.
    + exists owner. by eapply threads_ok_quiet_step.
  - intros j. rewrite (job_status_in_ext s s1) by done. apply moved_refl.
Qed.

Lemma harmless_sem t o s a s' :
  harmless o → sem cfg w t o s = Some (a, s') →
  JOBS s' = JOBS s ∧ heap s' = heap s ∧ issued s' = issued s ∧
  pool s' = pool s.
Proof.
  destruct o; cbn; try done; intros _ Hsem;
    repeat case_match; by simplify_eq.
Qed.

Lemma harmless_expected job_id st o a :
  harmless o → expects (worker_protocol job_id) st o a.
Proof. by destruct o. Qed.

(** *** A pipeline registers its job: [JOBS[job_id] = {...}] *)

Lemma job_status_in_assign s s1 j d :
  JOBS s1 = <[j := length (heap s)]> (JOBS s) → heap s1 = heap s ++ [d] →
  job_status_in s1 j = status_in d.
Proof.
  intros HJ Hh. apply (job_status_in_Some _ _ (length (heap s))).
  - rewrite HJ. apply lookup_insert_eq.
  - rewrite Hh. by rewrite lookup_app_r, Nat.sub_diag.
Qed.

Lemma job_status_in_assign_ne s s1 j d j0 :
  registry_ok s → j0 ≠ j →
  JOBS s1 = <[j := length (heap s)]> (JOBS s) → heap s1 = heap s ++ [d] →
  job_status_in s1 j0 = job_status_in s j0.
Proof.
  intros Hok Hne HJ Hh.
  destruct (JOBS s !! j0) as [r0|] eqn:Hj0.
  - destruct (Hok j0 r0 Hj0) as (d0 & x & Hd0 & _ & _).
    rewrite (job_status_in_Some s j0 r0 d0) by done.
    apply (job_status_in_Some _ _ r0).
    + rewrite HJ. by rewrite lookup_insert_ne.
    + rewrite Hh. by apply lookup_app_l_Some.
  - rewrite (job_status_in_None s) by done. apply job_status_in_None.
    rewrite HJ. by rewrite lookup_insert_ne.
Qed.

Lemma assign_step owner s s1 t a d k :
  registry_ok s → refs_distinct s → threads_ok w owner s →
  pool s !! t = Some (Worker a (Do (JobsAssign (arg_job_id a) d) k)) →
  thread_ok owner s t (Worker a (Do (JobsAssign (arg_job_id a) d) k)) →
  JOBS s1 = <[arg_job_id a := length (heap s)]> (JOBS s) →
  heap s1 = heap s ++ [d] → issued s1 = issued s →
  pool s1 = <[t := Worker a (k tt)]> (pool s) →
  invariant w s1 ∧ ∀ j, moved (job_status_in s j) (job_status_in s1 j).
Proof.
  intros Hok Hdist (Hissued & Hkeys & Hthreads) Ht (Hown & Hallowed & Hk)
    HJ Hh Hi Hp.
  destruct Hallowed as (_ & x & Hx & Htrans).
  pose proof (transition_known _ _ Htrans) as Hknown.
  specialize (Hk tt I). cbn [next worker_protocol] in Hk.
  assert (job_status_in s1 (arg_job_id a) = Some x) as Hnew
    by (by rewrite (job_status_in_assign s s1 _ d)).
  split; [split_and!|].
  - (* every registered job has a record with a status *)
    intros j r. rewrite HJ, Hh. intros Hj.
    apply lookup_insert_Some in Hj as [(<- & <-)|(Hne & Hj)].
    + exists d, x. split; [|done]. by rewrite lookup_app_r, Nat.sub_diag.
    + destruct (Hok j r Hj) as (d0 & x0 & Hd0 & Hx0 & Hk0).
      exists d0, x0. split; [|done]. by apply lookup_app_l_Some.
  - (* the new record is shared with no other job *)
    intros j j' r. rewrite HJ. intros Hj Hj'.
    apply lookup_insert_Some in Hj as [(<- & <-)|(Hne & Hj)];
      apply lookup_insert_Some in Hj' as [(<- & Hr)|(Hne' & Hj')]; try done.
    + destruct (Hok j' _ Hj') as (d0 & ? & Hd0 & _).
      apply lookup_lt_Some in Hd0. lia.
    + subst r. destruct (Hok j _ Hj) as (d0 & ? & Hd0 & _).
      apply lookup_lt_Some in Hd0. lia.
    + by eapply Hdist.
  - exists owner. split_and!.
    + intros y t0 Hy. rewrite Hi. by eapply Hissued.
    + intros j Hj. rewrite HJ in Hj.
      apply lookup_insert_is_Some in Hj as [<-|(Hne & Hj)].
      * exists t, a, (k tt). split; [|done].
        rewrite Hp. apply list_lookup_insert_eq. by eapply lookup_lt_Some.
      * destruct (Hkeys j Hj) as (t0 & a0 & p0 & Ht0 & Ha0).
        destruct (decide (t0 = t)) as [->|Hnet].
        { rewrite Ht in Ht0. injection Ht0 as <- _. done. }
        exists t0, a0, p0. split; [|done].
        rewrite Hp. by rewrite list_lookup_insert_ne.
    + intros t0 th0. rewrite Hp. intros Ht0.
      apply list_lookup_insert_Some in Ht0 as [(<- & <- & _)|(Hne & Ht0)].
      * cbn. split; [done|]. rewrite Hnew. by rewrite Hx in Hk.
      * specialize (Hthreads t0 th0 Ht0).
        destruct th0 as [a0 p0|r0 p0]; cbn in *; [|done].
        destruct Hthreads as [Hown0 Hp0]. split; [done|].
        rewrite (job_status_in_assign_ne s s1 (arg_job_id a) d); try done.
        intros Heq. rewrite Heq in Hown0. congruence.
  - intros j. destruct (decide (j = arg_job_id a)) as [->|Hne].
    + right. exists x. by split.
    + left. by eapply job_status_in_assign_ne.
Qed.

(** *** A pipeline updates its record: [JOBS[job_id][key] = v] *)

Lemma job_status_in_alter_ne s s1 j0 r (f : pydict → pydict) :
  JOBS s1 = JOBS s → heap s1 = alter f r (heap s) →
  JOBS s !! j0 ≠ Some r →
  job_status_in s1 j0 = job_status_in s j0.
Proof.
  intros HJ Hh Hne. unfold job_status_in, job_record. rewrite HJ, Hh.
  destruct (JOBS s !! j0) as [r0|]; [|done]. cbn.
  rewrite list_lookup_alter_ne; [done|]. congruence.
Qed.

Lemma status_in_insert key v d :
  status_in (<[key := v]> d)
  = if String.eqb key "status"
    then match v with PStr x => Some x | _ => None end
    else status_in d.
Proof.
  unfold status_in. destruct (String.eqb_spec key "status") as [->|Hne].
  - by rewrite lookup_insert_eq.
  - by rewrite lookup_insert_ne.
Qed.

Lemma setitem_step owner s s1 t a key v k r :
  registry_ok s → refs_distinct s → threads_ok w owner s →
  pool s !! t = Some (Worker a (Do (JobsSetItem (arg_job_id a) key v) k)) →
  thread_ok owner s t (Worker a (Do (JobsSetItem (arg_job_id a) key v) k)) →
  JOBS s !! arg_job_id a = Some r →
  JOBS s1 = JOBS s → heap s1 = alter (insert key v) r (heap s) →
  issued s1 = issued s →
  pool s1 = <[t := Worker a (k (Returns tt))]> (pool s) →
  invariant w s1 ∧ ∀ j, moved (job_status_in s j) (job_status_in s1 j).
Proof.
  intros Hok Hdist (Hissued & Hkeys & Hthreads) Ht (Hown & Hallowed & Hk)
    Hr HJ Hh Hi Hp.
  destruct (Hok _ _ Hr) as (d0 & cur & Hd0 & Hcur & Hcurk).
  assert (job_status_in s (arg_job_id a) = Some cur) as Hst
    by (by rewrite (job_status_in_Some s _ r d0)).
  rewrite Hst in Hallowed, Hk.
  destruct Hallowed as (_ & Hstatus).
  specialize (Hk (Returns tt)). cbn [next expects worker_protocol] in Hk.
  specialize (Hk ltac:(done)).
  set (st' := if String.eqb key "status"
              then match v with PStr x => Some x | _ => Some cur end
              else Some cur) in Hk.
  assert (heap s1 !! r = Some (<[key := v]> d0)) as Hd1
    by (by rewrite Hh, list_lookup_alter_eq, Hd0).
  assert (job_status_in s1 (arg_job_id a) = st') as Hnew.
  { rewrite (job_status_in_Some s1 _ r (<[key := v]> d0)); [|congruence|done].
    rewrite status_in_insert. subst st'.
    destruct (String.eqb_spec key "status") as [->|Hne]; [|done].
    destruct (Hstatus eq_refl ltac:(done)) as (x & -> & _). done. }
  assert (∀ j0, j0 ≠ arg_job_id a →
                job_status_in s1 j0 = job_status_in s j0) as Hothers.
  { intros j0 Hne. apply (job_status_in_alter_ne _ _ _ r (insert key v));
      try done.
    intros Hj0. apply Hne. by eapply Hdist. }
  split; [split_and!|].
  - intros j r0. rewrite HJ, Hh. intros Hj.
    destruct (decide (r0 = r)) as [->|Hne].
    + rewrite list_lookup_alter_eq, Hd0. cbn.
      destruct (String.eqb_spec key "status") as [->|Hne'].
      * destruct (Hstatus eq_refl ltac:(done)) as (x & -> & Htrans).
        exists (<["status" := PStr x]> d0), x. split; [done|].
        split; [by rewrite status_in_insert|].
        by eapply transition_known.
      * exists (<[key := v]> d0), cur. split; [done|].
        rewrite status_in_insert.
        by destruct (String.eqb_spec key "status").
    + rewrite list_lookup_alter_ne by done. by eapply Hok.
  - by eapply refs_distinct_ext.
  - exists owner. split_and!.
    + intros y t0 Hy. rewrite Hi. by eapply Hissued.
    + intros j Hj. rewrite HJ in Hj.
      destruct (Hkeys j Hj) as (t0 & a0 & p0 & Ht0 & Ha0).
      destruct (decide (t0 = t)) as [->|Hnet].
      * rewrite Ht in Ht0. injection Ht0 as <- _.
        exists t, a, (k (Returns tt)). split; [|done].
        rewrite Hp. apply list_lookup_insert_eq. by eapply lookup_lt_Some.
      * exists t0, a0, p0. split; [|done].
        rewrite Hp. by rewrite list_lookup_insert_ne.
    + intros t0 th0. rewrite Hp. intros Ht0.
      apply list_lookup_insert_Some in Ht0 as [(<- & <- & _)|(Hne & Ht0)].
      * cbn. split; [done|]. by rewrite Hnew.
      * specialize (Hthreads t0 th0 Ht0).
        destruct th0 as [a0 p0|r0 p0]; cbn in *; [|done].
        destruct Hthreads as [Hown0 Hp0]. split; [done|].
        rewrite Hothers; [done|].
        intros Heq. rewrite Heq in Hown0. congruence.
  - intros j. destruct (decide (j = arg_job_id a)) as [->|Hne].
    + rewrite Hnew, Hst. subst st'.
      destruct (String.eqb_spec key "status") as [->|Hne']; [|by left].
      destruct (Hstatus eq_refl ltac:(done)) as (x & -> & Htrans).
      right. by exists x.
    + left. by apply Hothers.
Qed.

(** *** A handler draws an identifier *)

Lemma uuid4_step owner s s1 t r k :
  registry_ok s → refs_distinct s → threads_ok w owner s →
  pool s !! t = Some (Handler r (Do Uuid4 k)) →
  thread_ok owner s t (Handler r (Do Uuid4 k)) →
  JOBS s1 = JOBS s → heap s1 = heap s → issued s1 = S (issued s) →
  pool s1 = <[t := Handler r (k (uuid4 w (issued s)))]> (pool s) →
  invariant w s1 ∧ ∀ j, moved (job_status_in s j) (job_status_in s1 j).
Proof.
  intros Hok Hdist (Hissued & Hkeys & Hthreads) Ht (own & [Hnone Hk] & _)
    HJ Hh Hi Hp.
  set (x := uuid4 w (issued s)) in *.
  specialize (Hk x I). cbn [next handler_protocol] in Hk.
  assert (owner !! x = None) as Hfresh.
  { destruct (owner !! x) as [t0|] eqn:Hx; [|done].
    destruct (Hissued x t0 Hx) as (n & Hn & Heq).
    apply uuid4_inj in Heq. lia. }
  assert (∀ y t0, owner !! y = Some t0 → <[x := t]> owner !! y = Some t0)
    as Hkeep.
  { intros y t0 Hy. rewrite lookup_insert_ne; [done|]. congruence. }
  split; [split_and!|].
  - by eapply registry_ok_ext.
  - by eapply refs_distinct_ext.
  - exists (<[x := t]> owner). split_and!.
    + intros y t0 Hy. rewrite Hi.
      apply lookup_insert_Some in Hy as [(<- & <-)|(Hne & Hy)].
      * exists (issued s). split; [lia|done].
      * destruct (Hissued y t0 Hy) as (n & Hn & Heq). exists n. split; [lia|done].
    + intros j Hj. rewrite HJ in Hj.
      destruct (Hkeys j Hj) as (t0 & a0 & p0 & Ht0 & Ha0).
      exists t0, a0, p0. split; [|done].
      rewrite Hp. rewrite list_lookup_insert_ne; [done|]. congruence.
    + intros t0 th0. rewrite Hp. intros Ht0.
      apply list_lookup_insert_Some in Ht0 as [(<- & <- & _)|(Hne & Ht0)].
      * exists (Some x). split; [done|]. intros ? [= <-]. apply lookup_insert_eq.
      * specialize (Hthreads t0 th0 Ht0).
        destruct th0 as [a0 p0|r0 p0]; cbn in *.
        { destruct Hthreads as [Hown0 Hp0]. split; [by apply Hkeep|].
          by rewrite (job_status_in_ext s s1). }
        { destruct Hthreads as (own0 & Hp0 & Hown0).
          exists own0. split; [done|]. intros y Hy. by apply Hkeep, Hown0. }
  - intros j. rewrite (job_status_in_ext s s1) by done. apply moved_refl.
Qed.

(** *** A handler starts the pipeline of the identifier it has drawn *)

Lemma start_step owner s s1 t r a k :
  registry_ok s → refs_distinct s → threads_ok w owner s →
  pool s !! t = Some (Handler r (Do (ThreadStart a) k)) →
  thread_ok owner s t (Handler r (Do (ThreadStart a) k)) →
  JOBS s1 = JOBS s → heap s1 = heap s → issued s1 = issued s →
  pool s1 = <[t := Handler r (k tt)]> (pool s ++ [worker cfg w a]) →
  invariant w s1 ∧ ∀ j, moved (job_status_in s j) (job_status_in s1 j).
Proof.
  intros Hok Hdist (Hissued & Hkeys & Hthreads) Ht (own & [Hown Hk] & Hmine)
    HJ Hh Hi Hp.
  cbn in Hown. specialize (Hmine _ Hown).
  specialize (Hk tt I). cbn [next handler_protocol] in Hk.
  set (j := arg_job_id a) in *.
  assert (JOBS s !! j = None) as Hunreg.
  { destruct (JOBS s !! j) as [r0|] eqn:Hj; [|done].
    destruct (Hkeys j ltac:(eauto)) as (t0 & a0 & p0 & Ht0 & Ha0).
    destruct (Hthreads _ _ Ht0) as [Hown0 _]. rewrite Ha0 in Hown0.
    assert (t0 = t) as -> by congruence. congruence. }
  assert (t < length (pool s))%nat as Hlt by (by eapply lookup_lt_Some).
  assert (∀ y t0, t0 ≠ t → owner !! y = Some t0 →
                  <[j := length (pool s)]> owner !! y = Some t0) as Hkeep.
  { intros y t0 Hne Hy. rewrite lookup_insert_ne; [done|]. congruence. }
  split; [split_and!|].
  - by eapply registry_ok_ext.
  - by eapply refs_distinct_ext.
  - exists (<[j := length (pool s)]> owner). split_and!.
    + intros y t0 Hy. rewrite Hi.
      apply lookup_insert_Some in Hy as [(<- & <-)|(Hne & Hy)].
      * by eapply Hissued.
      * by eapply Hissued.
    + intros j0 Hj0. rewrite HJ in Hj0.
      destruct (Hkeys j0 Hj0) as (t0 & a0 & p0 & Ht0 & Ha0).
      exists t0, a0, p0. split; [|done].
      rewrite Hp. rewrite list_lookup_insert_ne by congruence.
      by apply lookup_app_l_Some.
    + intros t0 th0. rewrite Hp. intros Ht0.
      apply list_lookup_insert_Some in Ht0 as [(<- & <- & _)|(Hne & Ht0)].
      * exists None. split; [done|]. by intros.
      * apply lookup_app_Some in Ht0 as [Ht0|(Hlen & Ht0)].
        { specialize (Hthreads t0 th0 Ht0).
          destruct th0 as [a0 p0|r0 p0]; cbn in *.
          - destruct Hthreads as [Hown0 Hp0]. split; [by apply Hkeep|].
            by rewrite (job_status_in_ext s s1).
          - destruct Hthreads as (own0 & Hp0 & Hown0).
            exists own0. split; [done|]. intros y Hy.
            by apply Hkeep, Hown0. }
        { apply list_lookup_singleton_Some in Ht0 as [Hzero <-].
          assert (t0 = length (pool s)) as -> by lia.
          cbn. fold j. split; [apply lookup_insert_eq|].
          rewrite (job_status_in_None s1) by (by rewrite HJ).
          apply pipeline_conduct. }
  - intros j0. rewrite (job_status_in_ext s s1) by done. apply moved_refl.
Qed.

(** *** A request arrives *)

Lemma arrive_step s r :
  invariant w s →
  invariant w (fire cfg w (Arrive r) s) ∧
  ∀ j, moved (job_status_in s j) (job_status_in (fire cfg w (Arrive r) s) j).
Proof.
  intros (Hok & Hdist & owner & Hissued & Hkeys & Hthreads).
  split; [split_and!|]; try done.
  - exists owner. split_and!; try done.
    + intros j Hj. destruct (Hkeys j Hj) as (t0 & a0 & p0 & Ht0 & Ha0).
      exists t0, a0, p0. split; [|done]. by apply lookup_app_l_Some.
    + intros t0 th0 Ht0. cbn in Ht0.
      apply lookup_app_Some in Ht0 as [Ht0|(Hlen & Ht0)].
      * specialize (Hthreads t0 th0 Ht0). by destruct th0.
      * apply list_lookup_singleton_Some in Ht0 as [_ <-].
        exists None. split; [apply endpoint_conduct | done].
  - intros j. apply moved_refl.
Qed.

(** *** Any other action *)

Lemma worker_harmless_step owner s t a o k ans s' :
  registry_ok s → refs_distinct s → threads_ok w owner s →
  pool s !! t = Some (Worker a (Do o k)) →
  harmless o → sem cfg w t o s = Some (ans, s') →
  let s1 := set_thread t (Worker a (k ans)) (account t o (JOBS_LOCK s) s') in
  invariant w s1 ∧ ∀ j, moved (job_status_in s j) (job_status_in s1 j).
Proof.
  intros Hok Hdist Hthreads Ht Ho Hsem s1.
  destruct (harmless_sem t o s ans s' Ho Hsem) as (HJ & Hh & Hi & Hp).
  destruct Hthreads as (Hissued & Hkeys & Hall).
  destruct (Hall _ _ Ht) as (Hown & Hallowed & Hk).
  apply (quiet_step_invariant owner s s1 t (Worker a (Do o k))
           (Worker a (k ans))); try done.
  - subst s1. cbn. by rewrite Hp.
  - split; [done|].
    specialize (Hk ans (harmless_expected _ _ _ _ Ho)).
    by rewrite (proj2 (harmless_for_worker _ _ _ Ho)) in Hk.
Qed.

Lemma handler_harmless_step owner s t r o k ans s' :
  registry_ok s → refs_distinct s → threads_ok w owner s →
  pool s !! t = Some (Handler r (Do o k)) →
  harmless o → sem cfg w t o s = Some (ans, s') →
  let s1 := set_thread t (Handler r (k ans)) (account t o (JOBS_LOCK s) s') in
  invariant w s1 ∧ ∀ j, moved (job_status_in s j) (job_status_in s1 j).
Proof.
  intros Hok Hdist Hthreads Ht Ho Hsem s1.
  destruct (harmless_sem t o s ans s' Ho Hsem) as (HJ & Hh & Hi & Hp).
  destruct Hthreads as (Hissued & Hkeys & Hall).
  destruct (Hall _ _ Ht) as (own & (Hallowed & Hk) & Hown).
  apply (quiet_step_invariant owner s s1 t (Handler r (Do o k))
           (Handler r (k ans))); try done.
  - subst s1. cbn. by rewrite Hp.
  - exists own. split; [|done].
    specialize (Hk ans I).
    by rewrite (proj2 (harmless_for_handler _ _ Ho)) in Hk.
Qed.

(** *** One step of any thread *)

Lemma step_invariant t s s1 :
  invariant w s → step cfg w t s = Some s1 →
  invariant w s1 ∧ ∀ j, moved (job_status_in s j) (job_status_in s1 j).
Proof.
  intros (Hok & Hdist & owner & Hthreads) Hstep. unfold step in Hstep.
  destruct (pool s !! t) as [th|] eqn:Ht; [|done].
  pose proof (proj2 (proj2 Hthreads) t th Ht) as Hth.
  destruct th as [a [?|?|o k]|r [?|?|o k]]; cbn [advance] in Hstep; try done;
    destruct (sem cfg w t o s) as [[ans s']|] eqn:Hsem; try done;
    injection Hstep as <-.
  - (* a pipeline *)
    destruct o;
      try (by apply (worker_harmless_step owner s t a _ k ans s'));
      try (by destruct Hth as (_ & [] & _)).
    + (* JOBS[job_id] = {...} *)
      pose proof Hth as (_ & [Hj _] & _). subst job_id. destruct ans.
      cbn in Hsem. injection Hsem as <-.
      by apply (assign_step owner s _ t a d k).
    + (* JOBS[job_id][key] = v *)
      pose proof Hth as (Hown & [Hj _] & Hk). subst job_id. cbn in Hsem.
      destruct (JOBS s !! arg_job_id a) as [r|] eqn:Hr;
        injection Hsem as <- <-.
      * by apply (setitem_step owner s _ t a key v k r).
      * apply (quiet_step_invariant owner s _ t
                 (Worker a (Do (JobsSetItem (arg_job_id a) key v) k))
                 (Worker a (k (Fails "KeyError"
                                 ("'" +:+ arg_job_id a +:+ "'")))));
          try done.
        split; [done|].
        rewrite (job_status_in_None s) in Hk |- * by done.
        specialize (Hk (Fails "KeyError" ("'" +:+ arg_job_id a +:+ "'"))
                      eq_refl).
        cbn [next worker_protocol] in Hk.
        by destruct (String.eqb key "status").
  - (* a request handler *)
    destruct o;
      try (by apply (handler_harmless_step owner s t r _ k ans s'));
      try (by destruct Hth as (? & [[] _] & _)).
    + (* uuid4 *)
      cbn in Hsem. injection Hsem as <- <-.
      by apply (uuid4_step owner s _ t r k).
    + (* Thread.start *)
      destruct ans. cbn in Hsem. injection Hsem as <-.
      by apply (start_step owner s _ t r args k).
Qed.

Lemma fire_invariant e s :
  invariant w s →
  invariant w (fire cfg w e s) ∧
  ∀ j, moved (job_status_in s j) (job_status_in (fire cfg w e s) j).
Proof.
  intros Hinv. destruct e as [r|t].
  - by apply arrive_step.
  - cbn. destruct (step cfg w t s) as [s1|] eqn:Hstep.
    + by apply (step_invariant t).
    + split; [done|]. intros j. apply moved_refl.
Qed.

Lemma boot_invariant : invariant w boot.
Proof.
  split_and!.
  - intros j r Hj. cbn in Hj. by rewrite lookup_empty in Hj.
  - intros j j' r Hj. cbn in Hj. by rewrite lookup_empty in Hj.
  - exists ∅. split_and!.
    + intros x t Hx. by rewrite lookup_empty in Hx.
    + intros j [r Hj]. cbn in Hj. by rewrite lookup_empty in Hj.
    + intros t th Ht. cbn in Ht. by rewrite lookup_nil in Ht.
Qed.

Lemma run_snoc sched e s :
  run cfg w (sched ++ [e]) s = fire cfg w e (run cfg w sched s).
Proof. unfold run. by rewrite foldl_app. Qed.

Lemma run_app sched more s :
  run cfg w (sched ++ more) s = run cfg w more (run cfg w sched s).
Proof. unfold run. by rewrite foldl_app. Qed.

Lemma run_invariant sched s : invariant w s → invariant w (run cfg w sched s).
Proof.
  intros Hinv. induction sched as [|e sched IH] using rev_ind; [done|].
  rewrite run_snoc. by apply fire_invariant.
Qed.

End ServerInvariant.

(* ================================================================== *)
(** ** The running server: statuses and the registry over time *)

Section ServerProperties.

Context (cfg : config) (w : world).

(** From boot on, every event moves the status of every job by at most one
    transition. *)
Lemma moved_by_event sched e job_id :
  Inj (=) (=) (uuid4 w) →
  moved (job_status_in (run cfg w sched boot) job_id)
        (job_status_in (fire cfg w e (run cfg w sched boot)) job_id).
Proof.
  intros Hinj.
  by apply (fire_invariant cfg w Hinj), run_invariant, boot_invariant.
Qed.

Lemma transition_from_terminal x y :
  x = "completed" ∨ x = "failed" → transition (Some x) y = false.
Proof. by intros [->| ->]. Qed.

Lemma sem_keeps_registered t o s a s' job_id :
  sem cfg w t o s = Some (a, s') →
  is_Some (JOBS s !! job_id) → is_Some (JOBS s' !! job_id).
Proof.
  destruct o; cbn; intros Hsem Hj; repeat case_match; simplify_eq; try done.
  cbn. apply lookup_insert_is_Some'. by right.
Qed.

Lemma fire_keeps_registered e s job_id :
  is_Some (JOBS s !! job_id) → is_Some (JOBS (fire cfg w e s) !! job_id).
Proof.
  intros Hj. destruct e as [r|t]; [done|].
  cbn [fire]. unfold step.
  destruct (pool s !! t) as [[a p|r p]|]; [| |done].
  - destruct p as [?|?|o k]; try done. cbn [advance].
    destruct (sem cfg w t o s) as [[x s']|] eqn:Hsem; [|done].
    cbn. by eapply sem_keeps_registered.
  - destruct p as [?|?|o k]; try done. cbn [advance].
    destruct (sem cfg w t o s) as [[x s']|] eqn:Hsem; [|done].
    cbn. by eapply sem_keeps_registered.
Qed.

(** X1.  On a server started from boot, with identifiers that never repeat,
    no event, whichever thread is scheduled or whichever request arrives,
    changes the status the registry shows for a job other than by one
    transition of the state machine: registration as [image],
    [image -> video], [video -> completed], [image -> failed] or
    [video -> failed]. *)
Theorem status_moves_forward sched e job_id :
  Inj (=) (=) (uuid4 w) →
  moved (job_status_in (run cfg w sched boot) job_id)
        (job_status_in (fire cfg w e (run cfg w sched boot)) job_id).
Proof.
  intros Hinj.
  pose proof (run_invariant cfg w Hinj sched boot (boot_invariant w)) as Hinv.
  destruct (fire_invariant cfg w Hinj e _ Hinv) as [_ Hmoved].
  apply Hmoved.
Qed.

(** X2.  On such a server a job whose status is [completed] or [failed]
    keeps that status whatever happens afterwards. *)
Theorem terminal_status_is_final sched more job_id x :
  Inj (=) (=) (uuid4 w) →
  x = "completed" ∨ x = "failed" →
  job_status_in (run cfg w sched boot) job_id = Some x →
  job_status_in (run cfg w (sched ++ more) boot) job_id = Some x.
Proof.
  intros Hinj Hx Hst. induction more as [|e more IH] using rev_ind.
  - by rewrite app_nil_r.
  - rewrite app_assoc, run_snoc.
    destruct (moved_by_event (sched ++ more) e job_id Hinj)
      as [Heq|(y & _ & Hy)].
    + by rewrite Heq.
    + rewrite IH, transition_from_terminal in Hy by done. discriminate.
Qed.

(** X3.  The registry never forgets a job: from any state, a job id that is
    registered is still registered after any schedule. *)
Theorem registered_job_stays_registered sched s job_id :
  is_Some (JOBS s !! job_id) →
  is_Some (JOBS (run cfg w sched s) !! job_id).
Proof.
  intros Hj. induction sched as [|e sched IH] using rev_ind; [done|].
  rewrite run_snoc. by apply fire_keeps_registered.
Qed.

End ServerProperties.

Lemma status_moves_forward_witness :
  moved (job_status_in
           (run (local_cfg 10) fair_world (submit_only ++ [Run 1; Run 1]) boot)
           "0")
        (job_status_in
           (fire (local_cfg 10) fair_world (Run 1)
              (run (local_cfg 10) fair_world (submit_only ++ [Run 1; Run 1])
                 boot)) "0").
Proof.
  apply (status_moves_forward (local_cfg 10) fair_world
           (submit_only ++ [Run 1; Run 1]) (Run 1) "0").
  exact pretty_nat_inj.
Defined.

Lemma terminal_status_is_final_witness :
  job_status_in
    (run (local_cfg 10) fair_world
       (submit_and_finish ++ [Arrive (JobStatus "0"); Run 2; Run 1]) boot) "0"
  = Some "completed".
Proof.
  apply (terminal_status_is_final (local_cfg 10) fair_world submit_and_finish
           [Arrive (JobStatus "0"); Run 2; Run 1] "0" "completed").
  - exact pretty_nat_inj.
  - left. reflexivity.
  - vm_compute. reflexivity.
Defined.

Lemma registered_job_stays_registered_witness :
  is_Some (JOBS (run (local_cfg 10) fair_world
                   [Arrive Healthz; Run 2; Run 1; Run 1]
                   (run (local_cfg 10) fair_world submit_and_register boot))
             !! "0").
Proof.
  apply (registered_job_stays_registered (local_cfg 10) fair_world).
  vm_compute. eauto.
Defined.

(* ================================================================== *)
(** ** Status polls *)

Section Poll.

Context (cfg : config) (w : world).

Ltac answered :=
  eexists _, _, _; split; [reflexivity|];
  split; [done|]; split; [done|];
  split; [cbn; rewrite <- ?app_assoc; reflexivity|];
  split; [by repeat constructor|].

Lemma job_status_exec t job_id s :
  JOBS_LOCK s = None →
  ∃ resp s' es,
    exec cfg w t (serve (job_status job_id)) s = Some (Done resp, s') ∧
    same_registry s s' ∧ disk s' = disk s ∧
    log s' = log s ++ es ∧ Forall (poll_locking t) es ∧
    (job_record s job_id = None ∨ job_record s job_id = Some ∅ →
     resp = queued_answer) ∧
    (∀ d, job_record s job_id = Some d → d ≠ ∅ → d !! "status" = None →
          resp = PlainTextResponse 500 "Internal Server Error") ∧
    (∀ d st, job_record s job_id = Some d → d !! "status" = Some st →
       resp = JSONResponse 200 (PDict (
         let resp : pydict :=
           {[ "status" := st; "error" := default PNone (d !! "error") ]} in
         if is_str st "completed" then
           <[ "qr_url" := PStr ("/api/jobs/" +:+ job_id +:+ "/qr") ]>
             (<[ "image_url" := default PNone (d !! "image_url") ]>
                (<[ "video_url" := default PNone (d !! "video_url") ]> resp))
         else resp))).
Proof.
  intros Hfree.
  unfold serve, job_status, with_JOBS_LOCK, job_record, dict_get, dict_getitem.
  repeat (exec_run; rewrite ?Hfree).
  destruct (JOBS s !! job_id) as [r|] eqn:Hr; cbn [mbind option_bind]; exec_run.
  2:{ answered. split_and!; [done | intros ? [=] | intros ? ? [=]]. }
  destruct (heap s !! r) as [d|] eqn:Hd; exec_run.
  2:{ answered. split_and!; [done | intros ? [=] | intros ? ? [=]]. }
  destruct (size d =? 0)%nat eqn:Hsz; cbn [negb]; exec_run.
  { apply Nat.eqb_eq, map_size_empty_iff in Hsz. subst d.
    answered. split_and!; [done| |].
    - by intros ? [= <-].
    - intros ? ? [= <-]. by rewrite lookup_empty. }
  apply Nat.eqb_neq in Hsz.
  assert (d ≠ ∅) as Hne by (by rewrite <- map_size_empty_iff).
  rewrite ?Hd. cbn [mbind option_bind].
  destruct (d !! "status") as [st|] eqn:Hst; exec_run.
  2:{ answered. split_and!.
      - intros [[=]|[= ->]]. done.
      - done.
      - intros ? ? [= <-]. by rewrite Hst. }
  rewrite ?Hd. cbn [mbind option_bind]. exec_run.
  rewrite ?Hd. cbn [mbind option_bind]. rewrite ?Hst. exec_run.
  destruct (is_str st "completed") eqn:Hc; exec_run.
  - rewrite ?Hd. cbn [mbind option_bind]. exec_run.
    rewrite ?Hd. cbn [mbind option_bind]. exec_run.
    answered. split_and!.
    + intros [[=]|[= ->]]. done.
    + intros ? [= <-]. by rewrite Hst.
    + intros ? ? [= <-]. rewrite Hst. intros [= <-]. by rewrite Hc.
  - answered. split_and!.
    + intros [[=]|[= ->]]. done.
    + intros ? [= <-]. by rewrite Hst.
    + intros ? ? [= <-]. rewrite Hst. intros [= <-]. by rewrite Hc.
Qed.

(** X4.  On a server started from boot, with identifiers that never repeat,
    a status poll that runs while the lock is free is answered 200: with
    status [queued] when the job id is not in the registry, otherwise with the
    status the registry shows, which is one of [image], [video], [completed]
    and [failed].  It is never answered with an error. *)
Theorem poll_on_running_server sched t job_id :
  Inj (=) (=) (uuid4 w) →
  JOBS_LOCK (run cfg w sched boot) = None →
  ∃ resp s',
    exec cfg w t (serve (job_status job_id)) (run cfg w sched boot)
    = Some (Done resp, s') ∧
    status_of resp = 200 ∧
    match JOBS (run cfg w sched boot) !! job_id with
    | None => polled_status resp = Some "queued"
    | Some _ =>
        ∃ x, x ∈ statuses ∧
             job_status_in (run cfg w sched boot) job_id = Some x ∧
             polled_status resp = Some x
    end.
Proof.
  intros Hinj Hfree. set (s := run cfg w sched boot) in *.
  destruct (job_status_exec t job_id s Hfree)
    as (resp & s' & es & Hex & _ & _ & _ & _ & Hqueued & _ & Hstatus).
  exists resp, s'. split; [exact Hex|].
  destruct (JOBS s !! job_id) as [r|] eqn:Hr.
  - destruct (run_invariant cfg w Hinj sched boot (boot_invariant w))
      as (Hok & _).
    destruct (Hok job_id r Hr) as (d & x & Hd & Hx & Hknown).
    assert (job_record s job_id = Some d) as Hrec.
    { unfold job_record. fold s. rewrite Hr. exact Hd. }
    assert (d !! "status" = Some (PStr x)) as Hst.
    { unfold status_in in Hx. by repeat case_match; simplify_eq. }
    rewrite (Hstatus d _ Hrec Hst). split.
    + done.
    + exists x. split; [done|]. split.
      * unfold job_status_in. by rewrite Hrec.
      * cbn. destruct (String.eqb x "completed"); by vm_compute.
  - rewrite Hqueued; [done|]. left. unfold job_record. by rewrite Hr.
Qed.

(** X5.  What a status poll answers, run without interruption on any state
    whose lock is free.  A job that is not registered, or whose record is
    empty, is answered [{"status": "queued"}]; a record with a status is
    answered with its status and its error ([null] when it has none), and,
    when the status is [completed], with its video URL, its image URL and the
    path of its QR code as well; a record without a status is answered 500.
    The poll changes nothing but the lock, the clock and the log.  Only the
    lookup in the registry is made under the lock: the record is read after
    the lock was released. *)
Theorem poll_answer t job_id s :
  JOBS_LOCK s = None →
  ∃ resp s' es,
    exec cfg w t (serve (job_status job_id)) s = Some (Done resp, s') ∧
    same_registry s s' ∧ disk s' = disk s ∧
    log s' = log s ++ es ∧ Forall (poll_locking t) es ∧
    (job_record s job_id = None ∨ job_record s job_id = Some ∅ →
     resp = queued_answer) ∧
    (∀ d, job_record s job_id = Some d → d ≠ ∅ → d !! "status" = None →
          resp = PlainTextResponse 500 "Internal Server Error") ∧
    (∀ d st, job_record s job_id = Some d → d !! "status" = Some st →
       resp = JSONResponse 200 (PDict (
         let resp : pydict :=
           {[ "status" := st; "error" := default PNone (d !! "error") ]} in
         if is_str st "completed" then
           <[ "qr_url" := PStr ("/api/jobs/" +:+ job_id +:+ "/qr") ]>
             (<[ "image_url" := default PNone (d !! "image_url") ]>
                (<[ "video_url" := default PNone (d !! "video_url") ]> resp))
         else resp))).
Proof. apply job_status_exec. Qed.

End Poll.

(** Right after a submission was answered, its job is polled as [queued]. *)
Lemma poll_on_running_server_witness :
  ∃ resp s',
    exec (local_cfg 10) fair_world 2 (serve (job_status "0"))
      (run (local_cfg 10) fair_world submit_only boot)
    = Some (Done resp, s') ∧
    status_of resp = 200 ∧ polled_status resp = Some "queued".
Proof.
  destruct (poll_on_running_server (local_cfg 10) fair_world submit_only
              2%nat "0" pretty_nat_inj) as (resp & s' & Hex & H200 & Hst).
  { vm_compute. reflexivity. }
  exists resp, s'. split; [exact Hex|]. split; [exact H200|].
  assert (JOBS (run (local_cfg 10) fair_world submit_only boot) !! "0" = None)
    as Hnone by (vm_compute; reflexivity).
  rewrite Hnone in Hst. exact Hst.
Defined.

Lemma poll_answer_witness :
  ∃ resp s' es,
    exec (local_cfg 10) fair_world 2 (serve (job_status "0")) finished
    = Some (Done resp, s') ∧
    same_registry finished s' ∧
    log s' = log finished ++ es ∧ Forall (poll_locking 2) es.
Proof.
  destruct (poll_answer (local_cfg 10) fair_world 2%nat "0" finished)
    as (resp & s' & es & Hex & Hsame & _ & Hlog & Hes & _).
  { vm_compute. reflexivity. }
  exists resp, s', es. split; [exact Hex|]. split; [exact Hsame|].
  split; [exact Hlog | exact Hes].
Defined.

(* ================================================================== *)
(** ** The read-only endpoints and the health check *)

Section ReadOnly.

Context (cfg : config) (w : world).

Lemma read_only_sem t o s a s' :
  read_only o → sem cfg w t o s = Some (a, s') →
  JOBS s' = JOBS s ∧ heap s' = heap s ∧ disk s' = disk s ∧
  pool s' = pool s ∧ issued s' = issued s.
Proof.
  destruct o; cbn; try done; intros _ Hsem;
    repeat case_match; by simplify_eq.
Qed.

Lemma read_only_exec {A} t (p : prog A) s r s' :
  always read_only p → exec cfg w t p s = Some (r, s') →
  JOBS s' = JOBS s ∧ heap s' = heap s ∧ disk s' = disk s ∧
  pool s' = pool s ∧ issued s' = issued s.
Proof.
  revert s. induction p as [a|e|o k IH]; intros s Hp Hex.
  - by injection Hex as <- <-.
  - by injection Hex as <- <-.
  - destruct Hp as [Ho Hk]. cbn [exec] in Hex.
    destruct (sem cfg w t o s) as [[a s1]|] eqn:Hsem; [|done].
    destruct (read_only_sem _ _ _ _ _ Ho Hsem) as (HJ & Hh & Hd & Hp & Hi).
    destruct (IH a _ (Hk a) Hex) as (HJ' & Hh' & Hd' & Hp' & Hi').
    cbn in *. split_and!; congruence.
Qed.

Lemma sanitize_all_read_only qs : always read_only (sanitize_all qs).
Proof.
  induction qs as [|q qs IH]; [exact I|].
  cbn [sanitize_all]. unfold sanitize. always_go; apply IH.
Qed.

Lemma count_active_read_only jobs : always read_only (count_active jobs).
Proof.
  induction jobs as [|j jobs IH]; [exact I|].
  cbn [count_active]. unfold dict_getitem. always_go; apply IH.
Qed.

Lemma endpoint_read_only (r : request) :
  (∀ image age_group phone, r ≠ CreateJob image age_group phone) →
  always read_only (serve (endpoint cfg w r)).
Proof.
  intros Hr. unfold serve. apply always_try_except.
  2:{ intros []; exact I. }
  destruct r as [image age_group phone|job_id|job_id|count seed|]; cbn [endpoint].
  - by destruct (Hr image age_group phone).
  - unfold job_status, with_JOBS_LOCK, dict_getitem, dict_get. always_go.
  - unfold job_qr, with_JOBS_LOCK, dict_getitem, dict_get. always_go.
  - unfold get_questions. always_go. apply sanitize_all_read_only.
  - unfold healthz. always_go; try apply count_active_read_only.
Qed.

(** X6.  The four GET endpoints (status poll, QR code, quiz questions,
    health check) only read: on any state, whatever they answer, an
    uninterrupted run of one of them leaves the registry, the job records,
    the files, the thread pool and the identifier counter as they were. *)
Theorem get_endpoints_only_read t (r : request) s res s' :
  (∀ image age_group phone, r ≠ CreateJob image age_group phone) →
  exec cfg w t (serve (endpoint cfg w r)) s = Some (res, s') →
  JOBS s' = JOBS s ∧ heap s' = heap s ∧ disk s' = disk s ∧
  pool s' = pool s ∧ issued s' = issued s.
Proof.
  intros Hr. apply read_only_exec. by apply endpoint_read_only.
Qed.




End ReadOnly.

Lemma get_endpoints_only_read_witness :
  ∃ res s',
    exec (local_cfg 10) fair_world 0
      (serve (endpoint (local_cfg 10) fair_world (GetQuestions 1 None))) boot
    = Some (res, s') ∧
    JOBS s' = ∅ ∧ heap s' = [] ∧ disk s' = ∅ ∧ pool s' = [].
Proof.
  assert (∃ res s',
            exec (local_cfg 10) fair_world 0
              (serve (endpoint (local_cfg 10) fair_world (GetQuestions 1 None)))
              boot = Some (res, s')) as (res & s' & Hex).
  { vm_compute. eexists _, _. reflexivity. }
  destruct (get_endpoints_only_read (local_cfg 10) fair_world 0%nat
              (GetQuestions 1 None) boot res s') as (HJ & Hh & Hd & Hp & _).
  - intros image age_group phone. discriminate.
  - exact Hex.
  - exists res, s'. split; [exact Hex|]. by split_and!.
Defined.


(* ================================================================== *)
(** ** An accepted submission *)

Section Accept.

Context (cfg : config) (w : world).




End Accept.


(* ================================================================== *)
(** ** How an uninterrupted pipeline run ends *)

Section PipelineOutcome.

Context (cfg : config) (w : world).














End PipelineOutcome.

(* ================================================================== *)
(** ** Paths and storage *)

Section Paths.

Lemma append_cons c (a b : string) : String c a +:+ b = String c (a +:+ b).
Proof. reflexivity. Qed.


Lemma occurs_app c a b : occurs c (a +:+ b) = occurs c a || occurs c b.
Proof.
  induction a as [|c' a IH]; [done|].
  rewrite append_cons. cbn. by rewrite IH, orb_assoc.
Qed.





End Paths.

Section Storage.

Context (cfg : config) (w : world).





End Storage.

(* ================================================================== *)
(** ** Successful runs, and runs that fail while storing *)

Section PipelineSuccess.

Context (cfg : config) (w : world).






End PipelineSuccess.







(* ================================================================== *)
(** ** S3 keys *)

Section S3Key.

Lemma string_pair_ind (P : string → Prop) :
  P "" → (∀ c, P (String c "")) →
  (∀ c c' r, P r → P (String c' r) → P (String c (String c' r))) →
  ∀ s, P s.
Proof.
  intros H0 H1 H2 s.
  assert (P s ∧ ∀ c, P (String c s)) as [Hs _]; [|exact Hs].
  induction s as [|c' s [IH IH']]; [by split|].
  split; [apply IH'|]. intros c. by apply H2.
Qed.

Lemma remove_dotdot_keeps_head c r :
  Ascii.eqb c "." = false →
  Py.remove_dotdot (String c r) = String c (Py.remove_dotdot r).
Proof. intros Hc. destruct r as [|c' r']; cbn; by rewrite ?Hc. Qed.

Lemma remove_dotdot_pair c c' r :
  Py.remove_dotdot (String c (String c' r))
  = if Ascii.eqb c "." && Ascii.eqb c' "." then Py.remove_dotdot r
    else String c (Py.remove_dotdot (String c' r)).
Proof. reflexivity. Qed.

Lemma has_dotdot_cons c r :
  has_dotdot (String c r)
  = match r with
    | String c' _ => Ascii.eqb c "." && Ascii.eqb c' "." || has_dotdot r
    | EmptyString => false
    end.
Proof. reflexivity. Qed.

(** A single pass of [replace("..", "")] leaves no two dots in a row. *)
Lemma remove_dotdot_clean s : has_dotdot (Py.remove_dotdot s) = false.
Proof.
  induction s as [|c|c c' r IHr IHc'] using string_pair_ind.
  1,2: reflexivity.
  rewrite remove_dotdot_pair.
  destruct (Ascii.eqb c "." && Ascii.eqb c' ".") eqn:Hdots; [exact IHr|].
  rewrite has_dotdot_cons.
  destruct (Py.remove_dotdot (String c' r)) as [|x rest] eqn:Hrest; [done|].
  rewrite IHc', orb_false_r.
  destruct (Ascii.eqb c ".") eqn:Hc; [|done]. cbn in Hdots |- *.
  rewrite remove_dotdot_keeps_head in Hrest by done.
  injection Hrest as <- _. exact Hdots.
Qed.

Lemma has_dotdot_app_slash a b :
  has_dotdot (a +:+ String "/" b) = has_dotdot a || has_dotdot b.
Proof.
  induction a as [|c|c c' r IHr IHc'] using string_pair_ind.
  - change ("" +:+ String "/" b) with (String "/" b).
    rewrite has_dotdot_cons. by destruct b.
  - change (String c "" +:+ String "/" b) with (String c (String "/" b)).
    rewrite (has_dotdot_cons c). rewrite andb_false_r. cbn [orb].
    rewrite has_dotdot_cons. by destruct b.
  - change (String c (String c' r) +:+ String "/" b)
      with (String c (String c' r +:+ String "/" b)).
    rewrite (has_dotdot_cons c).
    change (String c' r +:+ String "/" b)
      with (String c' (r +:+ String "/" b)) at 1.
    rewrite IHc'. rewrite (has_dotdot_cons c (String c' r)).
    by rewrite orb_assoc.
Qed.

Lemma has_dotdot_join (parts : list string) :
  Forall (fun p => has_dotdot p = false) parts →
  has_dotdot (Py.join "/" parts) = false.
Proof.
  induction 1 as [|p parts Hp Hparts IH]; [done|].
  destruct parts as [|q parts]; [done|].
  change (Py.join "/" (p :: q :: parts))
    with (p +:+ String "/" (Py.join "/" (q :: parts))).
  by rewrite has_dotdot_app_slash, Hp, IH.
Qed.

(** X14.  An S3 key never goes up a directory: if the configured prefix has
    no two dots in a row, neither has the key built from any parts.  (One
    pass of [replace] on two dots suffices because what is left of a run of
    dots is at most one dot.) *)
Theorem s3_key_has_no_dotdot cfg (parts : list string) :
  has_dotdot (S3_PREFIX cfg) = false →
  has_dotdot (_s3_key cfg parts) = false.
Proof.
  intros Hprefix. unfold _s3_key.
  assert (Forall (fun p => has_dotdot p = false)
            ((fun p => Py.remove_dotdot (Py.strip_slash p))
               <$> filter (fun p => p ≠ "") parts)) as Hsafe.
  { apply Forall_fmap, Forall_forall. intros p _. apply remove_dotdot_clean. }
  destruct (String.eqb (S3_PREFIX cfg) ""); apply has_dotdot_join; [done|].
  by constructor.
Qed.

End S3Key.

Lemma s3_key_has_no_dotdot_witness :
  has_dotdot (_s3_key cdn_cfg ["videos"; "../../etc/passwd...mp4"]) = false.
Proof.
  apply (s3_key_has_no_dotdot cdn_cfg ["videos"; "../../etc/passwd...mp4"]).
  reflexivity.
Defined.

(* ================================================================== *)
(** ** Quiz answers *)

Section AnswersProps.

Context (cfg : config) (w : world).
Context (grade_answers : list pyval -> list pyval -> outcome pydict).
Context (os_makedirs : string -> outcome unit).
Context (format_value : pyval -> string).

(** X15.  A payload whose [key] or whose [answers] is missing or is not a
    list is answered 400 [Invalid payload]; nothing is graded, no file is
    opened, and the state is left exactly as it was. *)
Theorem submit_answers_invalid t job_id payload s :
  is_list (payload !! "key") = false ∨ is_list (payload !! "answers") = false →
  exec cfg w t
    (serve (submit_answers cfg w grade_answers os_makedirs format_value
              job_id payload)) s
  = Some (Done (JSONResponse 400 (PDict {[ "detail" := PStr "Invalid payload" ]})),
          s).
Proof.
  intros Hbad. unfold serve, submit_answers.
  destruct (payload !! "key") as [[| | | |key|]|];
    destruct (payload !! "answers") as [[| | | |answers|]|];
    try reflexivity.
  by destruct Hbad.
Qed.

(** X16.  A payload with both lists, graded with a result that has the
    fields [score], [correct] and [total], the directory made and the record
    file opened: the answer is 200 with the grading result itself, and the
    file [result/quiz/<job_id>.json] holds the three fields, one per line,
    between braces.  The job id is used for the file name only: the registry
    plays no part and is left as it was, so answers are accepted for any job
    id, registered or not. *)
Theorem submit_answers_records t job_id payload key answers result score
    correct total s :
  payload !! "key" = Some (PList key) →
  payload !! "answers" = Some (PList answers) →
  grade_answers key answers = Returns result →
  os_makedirs (Py.path_join (Py.path_join (ROOT_DIR cfg) "result") "quiz")
  = Returns tt →
  open_wb w (quiz_path cfg job_id) = Returns tt →
  result !! "score" = Some score → result !! "correct" = Some correct →
  result !! "total" = Some total →
  ∃ s',
    exec cfg w t
      (serve (submit_answers cfg w grade_answers os_makedirs format_value
                job_id payload)) s
    = Some (Done (JSONResponse 200 (PDict result)), s') ∧
    same_registry s s' ∧
    disk s'
    = <[quiz_path cfg job_id :=
          list_byte_of_string
            ("{" +:+ newline
             +:+ quiz_line format_value "score" score +:+ "," +:+ newline
             +:+ quiz_line format_value "correct" correct +:+ "," +:+ newline
             +:+ quiz_line format_value "total" total +:+ newline
             +:+ "}" +:+ newline)]> (disk s).
Proof.
  intros Hkey Hanswers Hgrade Hdirs Hopen Hscore Hcorrect Htotal.
  unfold serve, submit_answers, quiz_text, getitem.
  rewrite Hkey, Hanswers. cbn [default from_option id].
  rewrite Hgrade, Hdirs.
  exec_run. rewrite Hopen. exec_run.
  rewrite Hscore, Hcorrect, Htotal. exec_run.
  eexists. split; [reflexivity|]. split; [done|].
  cbn. by rewrite alter_insert_eq.
Qed.

(** X17.  When the grading result lacks one of the three fields, the
    request is answered 500; the record file was opened before the text was
    built, so an empty file is left behind. *)
Theorem submit_answers_leaves_empty_file t job_id payload key answers result s :
  payload !! "key" = Some (PList key) →
  payload !! "answers" = Some (PList answers) →
  grade_answers key answers = Returns result →
  os_makedirs (Py.path_join (Py.path_join (ROOT_DIR cfg) "result") "quiz")
  = Returns tt →
  open_wb w (quiz_path cfg job_id) = Returns tt →
  result !! "score" = None ∨ result !! "correct" = None
  ∨ result !! "total" = None →
  ∃ s',
    exec cfg w t
      (serve (submit_answers cfg w grade_answers os_makedirs format_value
                job_id payload)) s
    = Some (Done (PlainTextResponse 500 "Internal Server Error"), s') ∧
    same_registry s s' ∧
    disk s' = <[quiz_path cfg job_id := []]> (disk s).
Proof.
  intros Hkey Hanswers Hgrade Hdirs Hopen Hmissing.
  unfold serve, submit_answers, quiz_text, getitem.
  rewrite Hkey, Hanswers. cbn [default from_option id].
  rewrite Hgrade, Hdirs.
  exec_run. rewrite Hopen. exec_run.
  destruct (result !! "score") as [score|]; exec_run.
  2:{ eexists. by split_and!. }
  destruct (result !! "correct") as [correct|]; exec_run.
  2:{ eexists. by split_and!. }
  destruct (result !! "total") as [total|]; exec_run.
  2:{ eexists. by split_and!. }
  by destruct Hmissing as [?|[?|?]].
Qed.

End AnswersProps.

Lemma submit_answers_invalid_witness :
  exec (local_cfg 10) fair_world 0
    (serve (submit_answers (local_cfg 10) fair_world lenient_grader
              (fun _ => Returns tt) format_number "0"
              {[ "key" := PStr "Abu Dhabi"; "answers" := PList [] ]})) boot
  = Some (Done (JSONResponse 400 (PDict {[ "detail" := PStr "Invalid payload" ]})),
          boot).
Proof.
  apply (submit_answers_invalid (local_cfg 10) fair_world lenient_grader
           (fun _ => Returns tt) format_number 0%nat "0").
  left. reflexivity.
Defined.

Lemma submit_answers_records_witness :
  ∃ s',
    exec (local_cfg 10) fair_world 0
      (serve (submit_answers (local_cfg 10) fair_world lenient_grader
                (fun _ => Returns tt) format_number "no-such-job"
                quiz_payload)) boot
    = Some (Done (JSONResponse 200 (PDict
              {[ "score" := PNum 100; "correct" := PNum 1;
                 "total" := PNum 1 ]})), s') ∧
    JOBS s' = ∅ ∧
    disk s' !! "/app/result/quiz/no-such-job.json"
    = Some (list_byte_of_string
              ("{" +:+ newline
               +:+ "  " +:+ quote +:+ "score" +:+ quote +:+ ": 100," +:+ newline
               +:+ "  " +:+ quote +:+ "correct" +:+ quote +:+ ": 1," +:+ newline
               +:+ "  " +:+ quote +:+ "total" +:+ quote +:+ ": 1" +:+ newline
               +:+ "}" +:+ newline)).
Proof.
  destruct (submit_answers_records (local_cfg 10) fair_world lenient_grader
              (fun _ => Returns tt) format_number 0%nat "no-such-job"
              quiz_payload (PDict <$> quiz_bank) [PStr "Abu Dhabi"]
              {[ "score" := PNum 100; "correct" := PNum 1; "total" := PNum 1 ]}
              (PNum 100) (PNum 1) (PNum 1) boot)
    as (s' & Hex & (HJ & _) & Hdisk); [reflexivity ..|].
  exists s'. split; [exact Hex|]. split; [exact HJ|].
  rewrite Hdisk. vm_compute. reflexivity.
Defined.

Lemma submit_answers_leaves_empty_file_witness :
  ∃ s',
    exec (local_cfg 10) fair_world 0
      (serve (submit_answers (local_cfg 10) fair_world careless_grader
                (fun _ => Returns tt) format_number "0" quiz_payload)) boot
    = Some (Done (PlainTextResponse 500 "Internal Server Error"), s') ∧
    disk s' !! "/app/result/quiz/0.json" = Some [].
Proof.
  destruct (submit_answers_leaves_empty_file (local_cfg 10) fair_world
              careless_grader (fun _ => Returns tt) format_number 0%nat "0"
              quiz_payload (PDict <$> quiz_bank) [PStr "Abu Dhabi"]
              {[ "score" := PNum 100; "correct" := PNum 1 ]} boot)
    as (s' & Hex & _ & Hdisk);
    [solve [reflexivity | right; right; reflexivity] ..|].
  exists s'. split; [exact Hex|]. rewrite Hdisk. vm_compute. reflexivity.
Defined.

(* ================================================================== *)
(** ** A poll that overlaps the end of a pipeline *)

(** X18.  The record is read after the lock was released, and the pipeline
    writes [status] before the URLs: there is a schedule of the server under
    which a poll is answered that the job is completed, with its video URL
    set and its image URL still [null]. *)
Theorem poll_can_see_half_completed_job :
  ∃ sched resp,
    pool (run (local_cfg 10) fair_world sched boot) !! 2%nat ≫= answer_of
    = Some resp ∧
    resp = JSONResponse 200 (PDict
             {[ "status" := PStr "completed"; "error" := PNone;
                "video_url" := PStr "/media/videos/0.mp4";
                "image_url" := PNone;
                "qr_url" := PStr "/api/jobs/0/qr" ]}).
Proof.
  exists poll_during_completion. eexists. split; [|reflexivity].
  vm_compute. reflexivity.
Qed.

(* ================================================================== *)
(** ** The lock discipline on the running server *)

Section LockDiscipline.

Context (cfg : config) (w : world).

Lemma unlocked_stays held (o : op) :
  unlocked o →
  allowed lock_protocol held o ∧ ∀ a, next lock_protocol held o a = held.
Proof. by destruct o. Qed.

(** Code without locked blocks keeps the lock as it is. *)
Lemma unlocked_follows {A} held (p : prog A) :
  always unlocked p →
  follows lock_protocol held p (fun held' _ => held' = held).
Proof. apply (follows_always _ unlocked), unlocked_stays. Qed.

Lemma save_stream_unlocked path chunks read :
  always unlocked (save_stream cfg path chunks read).
Proof.
  revert read. induction chunks as [|c rest IH]; intros read; [exact I|].
  cbn [save_stream]. destruct (Nat.eqb (length c) 0); [exact I|].
  destruct (MAX_UPLOAD_SIZE cfg <? read + Z.of_nat (length c)); [exact I|].
  always_go. apply IH.
Qed.

Lemma sanitize_all_unlocked qs : always unlocked (sanitize_all qs).
Proof.
  induction qs as [|q qs IH]; [exact I|].
  cbn [sanitize_all]. unfold sanitize. always_go; apply IH.
Qed.

Lemma count_active_unlocked jobs : always unlocked (count_active jobs).
Proof.
  induction jobs as [|j jobs IH]; [exact I|].
  cbn [count_active]. unfold dict_getitem. always_go; apply IH.
Qed.

Lemma write_file_unlocked path data : always unlocked (write_file w path data).
Proof. unfold write_file. always_go. Qed.

Lemma store_media_unlocked job_id img_path edited_img_url video_url_remote :
  always unlocked
    (store_media cfg w job_id img_path edited_img_url video_url_remote).
Proof.
  unfold store_media, _s3_put_file, _s3_put_bytes, _s3_url_for_key,
    _save_local_image, _save_local_video.
  always_go; apply write_file_unlocked.
Qed.

Lemma pipeline_finally_unlocked img_path :
  always unlocked (pipeline_finally w img_path).
Proof. unfold pipeline_finally. always_go. Qed.

(** One step along the structure of a program that is to follow the lock
    protocol. *)
Ltac lock_step :=
  unfold mbind, prog_bind, mret, prog_ret;
  lazymatch goal with
  | |- follows _ _ (bind _ _) _ => apply follows_bind
  | |- follows _ _ (try_except _ _) _ => apply follows_try_except
  | |- follows _ _ (try_finally _ _) _ => apply follows_try_finally
  | |- follows _ _ (with_JOBS_LOCK _) _ => unfold with_JOBS_LOCK
  | |- follows _ _ (jobs_setitem _ _ _) _ => unfold jobs_setitem
  | |- follows _ _ (dict_getitem _ _) _ => unfold dict_getitem
  | |- follows _ _ (dict_get _ _) _ => unfold dict_get
  | |- follows _ _ (pipeline_except _ _ _) _ => unfold pipeline_except
  | |- follows _ _ (store_media _ _ _ _ _ _) _ =>
      eapply follows_mono;
      [|apply unlocked_follows, store_media_unlocked];
      cbv beta; intros ? ? ->
  | |- follows _ _ (pipeline_finally _ _) _ =>
      eapply follows_mono;
      [|apply unlocked_follows, pipeline_finally_unlocked];
      cbv beta; intros ? ? ->
  | |- follows _ _ (perform _) _ =>
      apply follows_perform;
      [ cbn [allowed lock_protocol]; try done
      | let a := fresh "a" in
        intros a _; cbn [next lock_protocol] ]
  | |- follows _ _ (call ?r) _ => destruct r; cbn [call]
  | |- follows _ _ (Ret _) _ => cbn [follows]
  | |- follows _ _ (Raise _) _ => cbn [follows]
  | |- follows _ _ (match ?x with _ => _ end) _ => destruct x
  | |- match ?x with _ => _ end => destruct x
  | |- True => exact I
  end;
  cbv beta iota; try discriminate; try done.

(** The pipeline takes the lock around each of its writes, and ends without
    it. *)
Lemma pipeline_locking job_id img_path age_group phone :
  follows lock_protocol false
          (_run_pipeline cfg w job_id img_path age_group phone)
          (fun held _ => held = false).
Proof.
  unfold _run_pipeline, pipeline_body.
  repeat lock_step.
Qed.

Lemma unlocked_locking {A} (p : prog A) :
  always unlocked p →
  follows lock_protocol false p (fun held _ => held = false).
Proof. apply unlocked_follows. Qed.

(** Every endpoint, as served, follows the lock protocol. *)
Lemma endpoint_locking (r : request) :
  follows lock_protocol false (serve (endpoint cfg w r))
          (fun held _ => held = false).
Proof.
  unfold serve. apply follows_try_except.
  eapply follows_mono with (Q := fun held _ => held = false).
  { by intros st' [a|[c d|c msg]] ->. }
  destruct r as [image age_group phone|job_id|job_id|count seed|]; cbn [endpoint].
  - apply unlocked_locking. unfold create_job. always_go.
    apply save_stream_unlocked.
  - unfold job_status. repeat lock_step.
  - unfold job_qr. repeat lock_step.
  - apply unlocked_locking. unfold get_questions. always_go.
    apply sanitize_all_unlocked.
  - apply unlocked_locking. unfold healthz.
    always_go; try apply count_active_unlocked.
Qed.

(** What an action does to the lock, the pool and the log. *)
Lemma sem_effect t o s a s0 :
  sem cfg w t o s = Some (a, s0) →
  log s0 = log s ∧
  ((o = Acquire ∧ JOBS_LOCK s = None ∧ JOBS_LOCK s0 = Some t ∧
    pool s0 = pool s)
   ∨ (o = Release ∧ JOBS_LOCK s0 = None ∧ pool s0 = pool s)
   ∨ (∃ x, o = ThreadStart x ∧ JOBS_LOCK s0 = JOBS_LOCK s ∧
           pool s0 = pool s ++ [worker cfg w x])
   ∨ (unlocked o ∨ guarded o = true) ∧ o ≠ Release ∧
     (∀ x, o ≠ ThreadStart x) ∧
     JOBS_LOCK s0 = JOBS_LOCK s ∧ pool s0 = pool s).
Proof.
  destruct o; cbn; intros Hsem; repeat case_match; simplify_eq;
    (split; [done|]);
    first [ by left
          | by right; left
          | by right; right; left; eexists
          | right; right; right; split_and!; try done; by auto ].
Qed.

(** One action of a thread that follows the lock protocol keeps the lock
    invariant; [wrap] is the kind of the thread. *)
Lemma lock_action_invariant {A} (wrap : prog A → thread) t s o
    (k : ans o → prog A) a s0 :
  (∀ held p, thread_follows lock_protocol held (fun held' => held' = false)
               (wrap p)
             = follows lock_protocol held p (fun held' _ => held' = false)) →
  lock_invariant s →
  pool s !! t = Some (wrap (Do o k)) →
  sem cfg w t o s = Some (a, s0) →
  lock_invariant (set_thread t (wrap (k a)) (account t o (JOBS_LOCK s) s0)).
Proof.
  intros Hwrap (Hbound & Hthreads & Hlog) Ht Hsem.
  pose proof (Hthreads t _ Ht) as Hme. rewrite Hwrap in Hme.
  destruct Hme as [Hallowed Hnext]. specialize (Hnext a I).
  pose proof (lookup_lt_Some _ _ _ Ht) as Hlt.
  destruct (sem_effect t o s a s0 Hsem) as [Hlog0 Hcases].
  assert (bool_decide (JOBS_LOCK s0 = Some t)
          = next lock_protocol (bool_decide (JOBS_LOCK s = Some t)) o a)
    as Hmine.
  { destruct Hcases as [(-> & _ & HL & _)|[(-> & HL & _)
                       |[(x & -> & HL & _)|(Hkind & Hr & _ & HL & _)]]];
      rewrite HL; cbn [next lock_protocol].
    - by rewrite bool_decide_eq_true_2.
    - by rewrite bool_decide_eq_false_2.
    - done.
    - destruct o; try done. by destruct Hkind. }
  assert (length (pool s) ≤ length (pool s0))%nat as Hlen.
  { destruct Hcases as [(_ & _ & _ & ->)|[(_ & _ & ->)
                       |[(x & _ & _ & ->)|(_ & _ & _ & _ & ->)]]];
      rewrite ?length_app; lia. }
  split_and!.
  - intros t' Hlock. cbn in Hlock |- *. rewrite length_insert.
    destruct (decide (t' = t)) as [->|Hne]; [lia|].
    assert (JOBS_LOCK s = Some t') as Hold.
    { destruct Hcases as [(-> & _ & HL & _)|[(-> & HL & _)
                         |[(x & -> & HL & _)|(_ & _ & _ & HL & _)]]];
        congruence. }
    specialize (Hbound t' Hold). lia.
  - intros t' th'. cbn. intros Ht'.
    apply list_lookup_insert_Some in Ht' as [(<- & <- & _)|(Hne & Ht')].
    { rewrite Hwrap, Hmine. exact Hnext. }
    assert (bool_decide (JOBS_LOCK s0 = Some t') = false
            ∨ (pool s !! t' = Some th' ∧
               bool_decide (JOBS_LOCK s0 = Some t')
               = bool_decide (JOBS_LOCK s = Some t'))) as Hstate.
    { destruct Hcases as [(-> & Hfree & HL & Hp)|[(-> & HL & Hp)
                         |[(x & -> & HL & Hp)|(_ & _ & _ & HL & Hp)]]].
      - left. rewrite HL. apply bool_decide_eq_false_2. congruence.
      - left. rewrite HL. by apply bool_decide_eq_false_2.
      - rewrite Hp in Ht'. rewrite HL.
        apply lookup_app_Some in Ht' as [Ht'|[Hge Ht']]; [by right|].
        left. apply bool_decide_eq_false_2. intros Hlock.
        specialize (Hbound t' Hlock). lia.
      - right. by rewrite <- Hp, HL. }
    destruct Hstate as [Hfalse|[Hold Hsame]].
    + rewrite Hfalse.
      destruct Hcases as [(-> & Hfree & HL & Hp)|[(-> & HL & Hp)
                         |[(x & -> & HL & Hp)|(_ & _ & _ & HL & Hp)]]].
      * rewrite Hp in Ht'. specialize (Hthreads t' th' Ht').
        by rewrite Hfree, bool_decide_eq_false_2 in Hthreads.
      * rewrite Hp in Ht'. specialize (Hthreads t' th' Ht').
        cbn [allowed lock_protocol] in Hallowed.
        apply bool_decide_eq_true_1 in Hallowed.
        rewrite Hallowed, bool_decide_eq_false_2 in Hthreads by congruence.
        exact Hthreads.
      * rewrite Hp in Ht'.
        apply lookup_app_Some in Ht' as [Ht'|[Hge Ht']].
        -- specialize (Hthreads t' th' Ht').
           rewrite HL in Hfalse. by rewrite Hfalse in Hthreads.
        -- destruct (t' - length (pool s))%nat as [|n] eqn:Hidx; [|done].
           injection Ht' as <-. apply pipeline_locking.
      * rewrite Hp in Ht'. specialize (Hthreads t' th' Ht').
        rewrite HL in Hfalse. by rewrite Hfalse in Hthreads.
    + rewrite Hsame. by apply Hthreads.
  - unfold writes_under_lock. cbn. rewrite Hlog0.
    apply Forall_app. split; [exact Hlog|].
    constructor; [|constructor]. cbn. intros Hguarded.
    assert (bool_decide (JOBS_LOCK s = Some t) = true) as Hheld.
    { destruct o; try discriminate Hguarded; exact Hallowed. }
    by apply bool_decide_eq_true_1 in Hheld.
Qed.

Lemma lock_step_invariant t s s1 :
  lock_invariant s → step cfg w t s = Some s1 → lock_invariant s1.
Proof.
  intros Hinv. unfold step.
  destruct (pool s !! t) as [[x p|r p]|] eqn:Ht; [| |done].
  - destruct p as [?|?|o k]; try done. cbn [advance].
    destruct (sem cfg w t o s) as [[a s0]|] eqn:Hsem; [|done].
    intros [= <-]. by apply (lock_action_invariant (Worker x)).
  - destruct p as [?|?|o k]; try done. cbn [advance].
    destruct (sem cfg w t o s) as [[a s0]|] eqn:Hsem; [|done].
    intros [= <-]. by apply (lock_action_invariant (Handler r)).
Qed.

Lemma lock_fire_invariant e s :
  lock_invariant s → lock_invariant (fire cfg w e s).
Proof.
  intros Hinv. destruct e as [r|t]; cbn [fire].
  - destruct Hinv as (Hbound & Hthreads & Hlog). split_and!.
    + intros t Hlock. cbn in *. rewrite length_app. specialize (Hbound t Hlock).
      lia.
    + intros t th. cbn. intros Ht.
      apply lookup_app_Some in Ht as [Ht|[Hge Ht]]; [by apply Hthreads|].
      destruct (t - length (pool s))%nat as [|n] eqn:Hidx; [|done].
      injection Ht as <-.
      rewrite bool_decide_eq_false_2.
      * apply endpoint_locking.
      * intros Hlock. specialize (Hbound t Hlock). lia.
    + exact Hlog.
  - destruct (step cfg w t s) as [s1|] eqn:Hstep; [|exact Hinv].
    by eapply lock_step_invariant.
Qed.

Lemma lock_boot_invariant : lock_invariant boot.
Proof. split_and!; [done| |constructor]. intros t th. by cbn. Qed.

Lemma lock_run_invariant sched : lock_invariant (run cfg w sched boot).
Proof.
  induction sched as [|e sched IH] using rev_ind.
  - apply lock_boot_invariant.
  - rewrite run_snoc. by apply lock_fire_invariant.
Qed.

Lemma sem_enabled t o s : o ≠ Acquire → is_Some (sem cfg w t o s).
Proof. destruct o; cbn; intros Ho; repeat case_match; by eauto. Qed.

(** X19.  Whatever the requests and however the threads interleave, on a
    server started from boot every write to the registry
    ([JOBS[job_id] = ...] and [JOBS[job_id][key] = ...]), every lookup
    [JOBS.get(job_id)] and every release of the lock is performed by the
    thread that holds the lock. *)
Theorem registry_writes_under_lock sched :
  writes_under_lock (run cfg w sched boot).
Proof. by destruct (lock_run_invariant sched) as (_ & _ & Hlog). Qed.

(** X23.  The lock is never left taken: on a server started from boot,
    whenever the lock is held its holder is a thread that has not finished
    and whose next action can be performed at once; it is not waiting for the
    lock.  (Every locked block releases the lock on every path, exceptions
    included, and no block is nested in another.) *)
Theorem lock_holder_can_step sched t :
  JOBS_LOCK (run cfg w sched boot) = Some t →
  is_Some (step cfg w t (run cfg w sched boot)).
Proof.
  intros Hlock. set (s := run cfg w sched boot) in *.
  destruct (lock_run_invariant sched) as (Hbound & Hthreads & _).
  fold s in Hbound, Hthreads.
  destruct (lookup_lt_is_Some_2 (pool s) t (Hbound t Hlock)) as [th Hth].
  specialize (Hthreads t th Hth).
  rewrite bool_decide_eq_true_2 in Hthreads by done.
  unfold step. rewrite Hth.
  destruct th as [a [?|?|o k]|r [?|?|o k]]; cbn in Hthreads; try done.
  - destruct Hthreads as [Hallowed _]. cbn [advance].
    destruct (sem_enabled t o s) as [[x s'] ->]; [by destruct o|eauto].
  - destruct Hthreads as [Hallowed _]. cbn [advance].
    destruct (sem_enabled t o s) as [[x s'] ->]; [by destruct o|eauto].
Qed.

End LockDiscipline.

Lemma lock_holder_can_step_witness :
  is_Some (step (local_cfg 10) fair_world 1
             (run (local_cfg 10) fair_world submit_and_hold boot)).
Proof.
  apply (lock_holder_can_step (local_cfg 10) fair_world submit_and_hold 1%nat).
  vm_compute. reflexivity.
Defined.

(* ================================================================== *)
(** ** Failures of the quiz-questions endpoint and of the upload file *)

Section MoreFailures.

Context (cfg : config) (w : world).






End MoreFailures.



(* ================================================================== *)
(** ** One pipeline per identifier *)

(** X22.  On a server started from boot whose identifiers never repeat, two
    pipeline threads with the same job id are one and the same thread: every
    submission gets a pipeline with an identifier of its own, so no two
    pipelines write the same entry of the registry. *)
Theorem pipelines_have_distinct_ids cfg w sched t t' a p a' p' :
  Inj (=) (=) (uuid4 w) →
  pool (run cfg w sched boot) !! t = Some (Worker a p) →
  pool (run cfg w sched boot) !! t' = Some (Worker a' p') →
  t ≠ t' →
  arg_job_id a ≠ arg_job_id a'.
Proof.
  intros Hinj Ht Ht' Hne Hid.
  destruct (run_invariant cfg w Hinj sched boot (boot_invariant w))
    as (_ & _ & owner & _ & _ & Hthreads).
  destruct (Hthreads t _ Ht) as [Hown _].
  destruct (Hthreads t' _ Ht') as [Hown' _].
  congruence.
Qed.

Lemma pipelines_have_distinct_ids_witness :
  ∃ a p a' p',
    pool (run (local_cfg 10) fair_world two_submissions boot) !! 1%nat
    = Some (Worker a p) ∧
    pool (run (local_cfg 10) fair_world two_submissions boot) !! 3%nat
    = Some (Worker a' p') ∧
    arg_job_id a ≠ arg_job_id a'.
Proof.
  assert (∃ a p a' p',
            pool (run (local_cfg 10) fair_world two_submissions boot) !! 1%nat
            = Some (Worker a p) ∧
            pool (run (local_cfg 10) fair_world two_submissions boot) !! 3%nat
            = Some (Worker a' p')) as (a & p & a' & p' & H1 & H3).
  { vm_compute. eexists _, _, _, _. split; reflexivity. }
  exists a, p, a', p'. split; [exact H1|]. split; [exact H3|].
  apply (pipelines_have_distinct_ids (local_cfg 10) fair_world two_submissions
           1%nat 3%nat a p a' p' pretty_nat_inj H1 H3).
  discriminate.
Defined.

(* ================================================================== *)
(** ** Where an upload is written *)

Section UploadPath.

Lemma after_last_tail c s t : Py.after_last c s = Some t → occurs c t = false.
Proof.
  revert t. induction s as [|c' s IH]; intros t; [done|]. cbn.
  destruct (Py.after_last c s) as [t'|] eqn:Hs.
  - intros [= <-]. by apply IH.
  - destruct (Ascii.eqb c' c); [|done]. intros [= <-].
    clear IH. induction s as [|x s IH]; [done|]. cbn in Hs |- *.
    destruct (Py.after_last c s); [done|].
    destruct (Ascii.eqb x c); [done|]. by apply IH.
Qed.

Lemma after_last_none_occurs c s :
  Py.after_last c s = None → occurs c s = false.
Proof.
  induction s as [|x s IH]; [done|]. cbn.
  destruct (Py.after_last c s); [done|].
  destruct (Ascii.eqb x c); [done|]. by apply IH.
Qed.

Lemma basename_no_slash p : occurs "/" (Py.basename p) = false.
Proof.
  unfold Py.basename. destruct (Py.after_last "/" p) as [t|] eqn:Hp; cbn.
  - by eapply after_last_tail.
  - by apply after_last_none_occurs.
Qed.

Lemma from_last_dot_occurs c r t :
  Py.from_last_dot r = Some t → occurs c r = false → occurs c t = false.
Proof.
  revert t. induction r as [|x r IH]; intros t; [done|]. cbn.
  intros Ht [Hx Hr]%orb_false_elim.
  destruct (Py.from_last_dot r) as [t'|].
  - injection Ht as <-. by apply IH.
  - destruct (Ascii.eqb x "."); [|done]. injection Ht as <-.
    cbn. by rewrite Hx, Hr.
Qed.

(** The extension pathlib finds in a name has no slash. *)
Lemma suffix_no_slash p : occurs "/" (Py.suffix p) = false.
Proof.
  unfold Py.suffix. pose proof (basename_no_slash p) as Hbase.
  destruct (Py.basename p) as [|x rest]; [done|].
  cbn in Hbase. apply orb_false_elim in Hbase as [_ Hrest].
  destruct (Py.from_last_dot rest) as [t|] eqn:Ht; [|done].
  destruct (Nat.eqb (String.length t) 1); [done|].
  by eapply from_last_dot_occurs.
Qed.

Lemma prefix_slash_false b : occurs "/" b = false → String.prefix "/" b = false.
Proof.
  intros Hb. destruct b as [|c b]; [done|].
  change (String.prefix "/" (String c b))
    with (if ascii_dec "/" c then String.prefix "" b else false).
  destruct (ascii_dec "/" c) as [<-|]; [|done]. by cbn in Hb.
Qed.

Lemma ends_with_slash_app a c b :
  Py.ends_with_slash (a +:+ String c b) = Py.ends_with_slash (String c b).
Proof.
  induction a as [|x a IH]; [done|].
  rewrite append_cons. cbn [Py.ends_with_slash].
  destruct (a +:+ String c b) eqn:Hab; [|exact IH].
  by destruct a.
Qed.

Lemma upload_dir_open cfg :
  UPLOAD_DIR cfg ≠ "" ∧ Py.ends_with_slash (UPLOAD_DIR cfg) = false.
Proof.
  unfold UPLOAD_DIR, Py.path_join. cbn [String.prefix].
  destruct (ascii_dec "/" "u") as [?|_]; [done|].
  destruct (String.eqb (ROOT_DIR cfg) "" || Py.ends_with_slash (ROOT_DIR cfg)).
  - split; [by destruct (ROOT_DIR cfg)|]. by rewrite ends_with_slash_app.
  - split; [by destruct (ROOT_DIR cfg)|].
    change ("/" +:+ "uploads") with (String "/" "uploads").
    by rewrite ends_with_slash_app.
Qed.

(** X24.  Whatever file name the client sends (its last component being
    neither empty nor a single dot), the upload is written directly in the
    uploads directory, under the job id followed by an extension that has no
    slash (the one of the file name, [.jpg] when it has none), the job id
    having no slash itself: the file name cannot move the upload elsewhere. *)
Theorem upload_is_written_in_upload_dir cfg (image : UploadFile) job_id :
  occurs "/" job_id = false →
  Py.basename (filename image) ≠ "" → Py.basename (filename image) ≠ "." →
  let ext := str_or (Py.suffix (filename image)) ".jpg" in
  occurs "/" ext = false ∧ ext ≠ "" ∧
  upload_path_for cfg image job_id
  = UPLOAD_DIR cfg +:+ "/" +:+ job_id +:+ ext.
Proof.
  intros Hid _ _ ext.
  assert (occurs "/" ext = false ∧ ext ≠ "") as [Hext Hne].
  { unfold ext, str_or.
    destruct (String.eqb_spec (Py.suffix (filename image)) "") as [Heq|Hneq].
    - by split.
    - split; [apply suffix_no_slash | done]. }
  split; [exact Hext|]. split; [exact Hne|].
  unfold upload_path_for. fold ext. unfold Py.path_join at 1.
  rewrite prefix_slash_false by (by rewrite occurs_app, Hid, Hext).
  destruct (upload_dir_open cfg) as [Hdir Hopen].
  apply String.eqb_neq in Hdir. by rewrite Hdir, Hopen.
Qed.

End UploadPath.

Lemma upload_is_written_in_upload_dir_witness :
  upload_path_for (local_cfg 10)
    {| filename := "../../etc/cron.d/x.png"; content_type := Some "image/png";
       stream := [] |} "0"
  = "/app/uploads/0.png".
Proof.
  apply (upload_is_written_in_upload_dir (local_cfg 10)
           {| filename := "../../etc/cron.d/x.png";
              content_type := Some "image/png"; stream := [] |} "0").
  - reflexivity.
  - discriminate.
  - discriminate.
Defined.
